(** * A model of requirements_scanner.py (What-Reqs-Scanner)

    Characters are modelled as ASCII ([Stdlib.Strings.Ascii]); Python's
    string comparison (code-point order) is then [String.compare]. *)

From Stdlib Require Import String Ascii List Bool Arith Lia Permutation Sorted.
From Stdlib Require Import NArith Numbers.DecimalString.
Import ListNotations.
Open Scope list_scope.
Open Scope string_scope.
Set Warnings "-register-all".

(** ** Character classes *)

Definition code (c : ascii) : nat := nat_of_ascii c.

(** Python's [str.isspace] / regex [\s] restricted to ASCII:
    0x09-0x0D, 0x1C-0x1F and the space. *)
Definition is_space (c : ascii) : bool :=
  let n := code c in
  ((Nat.leb 9 n) && (Nat.leb n 13)) || ((Nat.leb 28 n) && (Nat.leb n 32)).

Definition is_lower (c : ascii) : bool := (Nat.leb 97 (code c)) && (Nat.leb (code c) 122).
Definition is_upper (c : ascii) : bool := (Nat.leb 65 (code c)) && (Nat.leb (code c) 90).
Definition is_digit (c : ascii) : bool := (Nat.leb 48 (code c)) && (Nat.leb (code c) 57).

(** [[a-zA-Z0-9]] *)
Definition is_alnum (c : ascii) : bool := is_lower c || is_upper c || is_digit c.

(** [[a-zA-Z0-9._-]] *)
Definition is_namechar (c : ascii) : bool :=
  is_alnum c || Ascii.eqb c "." || Ascii.eqb c "_" || Ascii.eqb c "-".

(** [[=<>!]] *)
Definition is_op (c : ascii) : bool :=
  Ascii.eqb c "=" || Ascii.eqb c "<" || Ascii.eqb c ">" || Ascii.eqb c "!".

(** [str.lower] on one ASCII character. *)
Definition lower_char (c : ascii) : ascii :=
  if is_upper c then ascii_of_nat (code c + 32) else c.

(** ** String helpers (Python's [str] methods) *)

(** [s.split('#')[0]] *)
Fixpoint before_hash (s : string) : string :=
  match s with
  | EmptyString => EmptyString
  | String c t => if Ascii.eqb c "#" then EmptyString else String c (before_hash t)
  end.

Fixpoint lstrip (s : string) : string :=
  match s with
  | EmptyString => EmptyString
  | String c t => if is_space c then lstrip t else s
  end.

Fixpoint rstrip (s : string) : string :=
  match s with
  | EmptyString => EmptyString
  | String c t =>
      let r := rstrip t in
      if is_space c && String.eqb r "" then EmptyString else String c r
  end.

(** [s.strip()] *)
Definition strip (s : string) : string := rstrip (lstrip s).

(** [s.startswith(p)] *)
Definition startswith (p s : string) : bool := String.prefix p s.

(** [s.lower()] *)
Fixpoint lower (s : string) : string :=
  match s with
  | EmptyString => EmptyString
  | String c t => String (lower_char c) (lower t)
  end.

(** [s.replace(a, b)] for single characters *)
Fixpoint replace_char (a b : ascii) (s : string) : string :=
  match s with
  | EmptyString => EmptyString
  | String c t => String (if Ascii.eqb c a then b else c) (replace_char a b t)
  end.

Fixpoint take_while (p : ascii -> bool) (s : string) : string :=
  match s with
  | EmptyString => EmptyString
  | String c t => if p c then String c (take_while p t) else EmptyString
  end.

Fixpoint drop_while (p : ascii -> bool) (s : string) : string :=
  match s with
  | EmptyString => EmptyString
  | String c t => if p c then drop_while p t else s
  end.

(** Longest prefix of [s] that is empty or ends in an alphanumeric
    character: what the backtracking of [[a-zA-Z0-9._-]*[a-zA-Z0-9]]
    leaves of a greedy run. *)
Fixpoint upto_last_alnum (s : string) : string :=
  match s with
  | EmptyString => EmptyString
  | String c t =>
      let r := upto_last_alnum t in
      if String.eqb r "" && negb (is_alnum c) then EmptyString else String c r
  end.

(** ** [PackageNormalizer.parse_requirement]

    [re.match(r'^([a-zA-Z0-9]([a-zA-Z0-9._-]*[a-zA-Z0-9])?)', line)]:
    an alphanumeric first character, then the greedy run of name
    characters cut back to its last alphanumeric character (the optional
    group is empty when that run holds none).  The result is the matched
    name, [match.group(1)]; [match.end()] is its length. *)
Definition match_name (line : string) : option string :=
  match line with
  | EmptyString => None
  | String c t =>
      if is_alnum c then Some (String c (upto_last_alnum (take_while is_namechar t)))
      else None
  end.

(** [re.search(r'([=<>!]+.*?)(?:\s|$)', rest)] and [group(1)]: the search
    succeeds exactly at the first operator character (from there the lazy
    [.*?] always reaches a whitespace character or the end, [\n] being
    whitespace), and the group runs up to the first whitespace character. *)
Definition search_version (rest : string) : option string :=
  match drop_while (fun c => negb (is_op c)) rest with
  | EmptyString => None
  | s => Some (take_while (fun c => negb (is_space c)) s)
  end.

(** [package_name.lower().replace('_', '-')] *)
Definition normalize (package_name : string) : string :=
  replace_char "_" "-" (lower package_name).

Definition parse_requirement (line0 : string) : option (string * string) :=
  let line := strip (before_hash line0) in
  if String.eqb line "" then None
  else if startswith "http://" line || startswith "https://" line
          || startswith "git+" line || startswith "-e " line then None
  else
    match match_name line with
    | None => None
    | Some package_name =>
        let normalized_name := normalize package_name in
        let version_spec :=
          match search_version (substring (String.length package_name)
                                  (String.length line) line) with
          | Some g => strip g
          | None => ""
          end in
        Some (normalized_name, version_spec)
    end.

Definition nl : string := String (ascii_of_nat 10) EmptyString.

(** ** Python dicts: association lists in insertion order *)

Section Dict.
Context {V : Type}.

Fixpoint dget (k : string) (d : list (string * V)) : option V :=
  match d with
  | [] => None
  | (k', v) :: t => if String.eqb k k' then Some v else dget k t
  end.

(** [d[k] = v]: an existing key keeps its position, a new key goes last. *)
Fixpoint dset (k : string) (v : V) (d : list (string * V)) : list (string * V) :=
  match d with
  | [] => [(k, v)]
  | (k', v') :: t => if String.eqb k k' then (k', v) :: t else (k', v') :: dset k v t
  end.

Definition dkeys (d : list (string * V)) : list string := map fst d.

End Dict.

(** A discovered manifest: its path and its lines ([None] when opening or
    decoding it raises, in which case the loops print a warning and skip
    it). Each line is given as Python's file iteration yields it. *)
Definition manifest : Type := (string * option (list string))%type.

(** ** [RequirementsScanner.extract_packages] *)

Definition ep_line (packages : list (string * list string)) (line : string)
  : list (string * list string) :=
  match parse_requirement line with
  | None => packages
  | Some (package_name, version_spec) =>
      if String.eqb package_name "" then packages else
      let packages :=
        match dget package_name packages with
        | None => dset package_name [] packages
        | Some _ => packages
        end in
      let cur := match dget package_name packages with Some l => l | None => [] end in
      if negb (String.eqb version_spec "") && negb (existsb (String.eqb version_spec) cur)
      then dset package_name (app cur [version_spec]) packages
      else packages
  end.

Definition extract_packages (requirements_files : list manifest)
  : list (string * list string) :=
  fold_left (fun packages (req_file : manifest) =>
               match snd req_file with
               | None => packages
               | Some lines => fold_left ep_line lines packages
               end) requirements_files [].

(** ** [RequirementsScanner.extract_packages_with_versions] *)

Definition full_spec_of (package_name version_spec : string) : string :=
  if negb (String.eqb version_spec "") then package_name ++ version_spec
  else package_name.

(** One line, with the per-file [seen_in_file] set. *)
Definition epv_line (st : list (string * nat) * list string) (line : string)
  : list (string * nat) * list string :=
  let (package_versions, seen_in_file) := st in
  match parse_requirement line with
  | None => st
  | Some (package_name, version_spec) =>
      if String.eqb package_name "" then st else
      let full_spec := full_spec_of package_name version_spec in
      if negb (existsb (String.eqb full_spec) seen_in_file) then
        (dset full_spec (match dget full_spec package_versions with
                         | Some n => n | None => 0 end + 1) package_versions,
         full_spec :: seen_in_file)
      else st
  end.

Definition extract_packages_with_versions (requirements_files : list manifest)
  : list (string * nat) :=
  fold_left (fun package_versions (req_file : manifest) =>
               match snd req_file with
               | None => package_versions
               | Some lines => fst (fold_left epv_line lines (package_versions, []))
               end) requirements_files [].

(** ** The counting loop of [generate_frequency_report] *)

Definition pc_line (st : list (string * nat) * list string) (line : string)
  : list (string * nat) * list string :=
  let (package_counts, seen_in_file) := st in
  match parse_requirement line with
  | None => st
  | Some (package_name, _) =>
      if negb (String.eqb package_name "")
         && negb (existsb (String.eqb package_name) seen_in_file) then
        (dset package_name (match dget package_name package_counts with
                            | Some n => n | None => 0 end + 1) package_counts,
         package_name :: seen_in_file)
      else st
  end.

Definition package_counts_of (requirements_files : list manifest)
  : list (string * nat) :=
  fold_left (fun package_counts (req_file : manifest) =>
               match snd req_file with
               | None => package_counts
               | Some lines => fst (fold_left pc_line lines (package_counts, []))
               end) requirements_files [].

(** ** [sorted]: a stable sort, here insertion sort.  [le x y] is Python's
    [key(x) <= key(y)]; a stable sort by a total preorder has one result. *)

Section Sort.
Context {A : Type} (le : A -> A -> bool).

Fixpoint insert_by (x : A) (l : list A) : list A :=
  match l with
  | [] => [x]
  | y :: t => if le x y then x :: y :: t else y :: insert_by x t
  end.

Fixpoint sort_by (l : list A) : list A :=
  match l with
  | [] => []
  | x :: t => insert_by x (sort_by t)
  end.

End Sort.

(** [sorted(keys)] *)
Definition sorted_strings (l : list string) : list string := sort_by String.leb l.

(** [key=lambda x: (-x[1], x[0])] *)
Definition freq_le (a b : string * nat) : bool :=
  Nat.ltb (snd b) (snd a) || (Nat.eqb (snd a) (snd b) && String.leb (fst a) (fst b)).

Definition sort_by_freq (items : list (string * nat)) : list (string * nat) :=
  sort_by freq_le items.

(** ** Effects: console and files, with Python exceptions

    A run is a state-and-error computation over the trace of its effects.
    [EOpenW p] is [open(p, 'w')], which truncates [p]; [EWrite p s] is one
    [f.write(s)]; [EClose p] the end of the [with] block.  Console output
    is recorded by the literal text of the [print] call (an emoji prefix
    left out). *)

Inductive event : Type :=
| EPrint (s : string)
| EInput (prompt : string)
| EOpenW (p : string)
| EWrite (p : string) (s : string)
| EClose (p : string).

Inductive exn : Type := KeyError | ImportError | ValueError | Exception_ | EOFError.

Inductive result (A : Type) : Type := Ok (a : A) | Raise (e : exn).
Arguments Ok {A} a.
Arguments Raise {A} e.

Definition M (A : Type) : Type := list event -> result A * list event.

Definition ret {A} (a : A) : M A := fun tr => (Ok a, tr).
Definition bind {A B} (m : M A) (k : A -> M B) : M B :=
  fun tr => match m tr with
            | (Ok a, tr') => k a tr'
            | (Raise e, tr') => (Raise e, tr')
            end.
Definition raise {A} (e : exn) : M A := fun tr => (Raise e, tr).
Definition emit (ev : event) : M unit := fun tr => (Ok tt, app tr [ev]).
Definition try_catch {A} (m : M A) (h : exn -> M A) : M A :=
  fun tr => match m tr with
            | (Raise e, tr') => h e tr'
            | r => r
            end.

Notation "x <- m ;; k" := (bind m (fun x => k)) (at level 61, m at next level, right associativity).
Notation "m ;;; k" := (bind m (fun _ => k)) (at level 61, right associativity).

Fixpoint mapM_ {A} (f : A -> M unit) (l : list A) : M unit :=
  match l with
  | [] => ret tt
  | x :: t => f x ;;; mapM_ f t
  end.

(** [with open(p, 'w') as f: body]: the file is closed also when [body]
    raises, and the exception goes on. *)
Definition with_open (p : string) (body : M unit) : M unit :=
  emit (EOpenW p) ;;;
  try_catch (body ;;; emit (EClose p)) (fun e => emit (EClose p) ;;; raise e).

(** The file contents after a trace, from initial contents [fs]: what
    was written through the file objects, in order.  Python's file objects
    buffer their writes, so this is what the disk holds once each file is
    closed; the disk states in between are [disk_step]'s. *)
Fixpoint fs_apply (fs : list (string * string)) (tr : list event) : list (string * string) :=
  match tr with
  | [] => fs
  | EOpenW p :: t => fs_apply (dset p "" fs) t
  | EWrite p s :: t =>
      fs_apply (dset p (match dget p fs with Some c => c | None => "" end ++ s) fs) t
  | _ :: t => fs_apply fs t
  end.

(** ** Text formatting *)

Definition str_of_nat (n : nat) : string := NilEmpty.string_of_uint (Nat.to_uint n).

Fixpoint repeat_char (c : ascii) (n : nat) : string :=
  match n with 0 => "" | S k => String c (repeat_char c k) end.

(** [f"{s:<w}"] *)
Definition pad (w : nat) (s : string) : string :=
  s ++ repeat_char " " (w - String.length s).

Fixpoint join (sep : string) (l : list string) : string :=
  match l with
  | [] => ""
  | [x] => x
  | x :: t => x ++ sep ++ join sep t
  end.

(** ** The four report generators *)

Definition generate_unique_packages_report (packages : list (string * list string))
  (output_file : string) : M unit :=
  let sorted_packages := sorted_strings (dkeys packages) in
  with_open output_file (
    emit (EWrite output_file ("# Unique Packages (Alphabetically Sorted)" ++ nl)) ;;;
    emit (EWrite output_file ("# Total unique packages: "
                              ++ str_of_nat (List.length sorted_packages) ++ nl ++ nl)) ;;;
    mapM_ (fun package => emit (EWrite output_file (package ++ nl))) sorted_packages) ;;;
  emit (EPrint ("Unique packages report saved to: " ++ output_file)).

Definition freq_row (packages : list (string * list string)) (output_file : string)
  (item : string * nat) : M unit :=
  let (package, count) := item in
  match dget package packages with
  | None => raise KeyError
  | Some vs =>
      let versions := match vs with [] => "any" | _ => join ", " vs end in
      emit (EWrite output_file (pad 40 package ++ " " ++ pad 10 (str_of_nat count)
                                ++ " " ++ versions ++ nl))
  end.

Definition generate_frequency_report (packages : list (string * list string))
  (requirements_files : list manifest) (output_file : string) : M unit :=
  let package_counts := package_counts_of requirements_files in
  let sorted_by_freq := sort_by_freq package_counts in
  with_open output_file (
    emit (EWrite output_file ("# Packages by Frequency" ++ nl)) ;;;
    emit (EWrite output_file ("# Total requirements.txt files scanned: "
                              ++ str_of_nat (List.length requirements_files) ++ nl)) ;;;
    emit (EWrite output_file ("# Total unique packages: "
                              ++ str_of_nat (List.length package_counts) ++ nl ++ nl)) ;;;
    emit (EWrite output_file (pad 40 "Package" ++ " " ++ pad 10 "Count" ++ " "
                              ++ "Versions Found" ++ nl)) ;;;
    emit (EWrite output_file (repeat_char "-" 40 ++ " " ++ repeat_char "-" 10 ++ " "
                              ++ repeat_char "-" 40 ++ nl)) ;;;
    mapM_ (freq_row packages output_file) sorted_by_freq) ;;;
  emit (EPrint ("Frequency report saved to: " ++ output_file)).

Definition generate_unique_packages_with_versions_report
  (package_versions : list (string * nat)) (output_file : string) : M unit :=
  let sorted_packages := sorted_strings (dkeys package_versions) in
  with_open output_file (
    emit (EWrite output_file ("# Unique Packages with Versions (Alphabetically Sorted)" ++ nl)) ;;;
    emit (EWrite output_file ("# Total unique package+version combinations: "
                              ++ str_of_nat (List.length sorted_packages) ++ nl ++ nl)) ;;;
    mapM_ (fun package_spec => emit (EWrite output_file (package_spec ++ nl))) sorted_packages) ;;;
  emit (EPrint ("Unique packages with versions report saved to: " ++ output_file)).

Definition generate_frequency_with_versions_report
  (package_versions : list (string * nat)) (requirements_files : list manifest)
  (output_file : string) : M unit :=
  let sorted_by_freq := sort_by_freq package_versions in
  with_open output_file (
    emit (EWrite output_file ("# Packages with Versions by Frequency" ++ nl)) ;;;
    emit (EWrite output_file ("# Total requirements.txt files scanned: "
                              ++ str_of_nat (List.length requirements_files) ++ nl)) ;;;
    emit (EWrite output_file ("# Total unique package+version combinations: "
                              ++ str_of_nat (List.length package_versions) ++ nl ++ nl)) ;;;
    emit (EWrite output_file (pad 60 "Package Specification" ++ " " ++ pad 10 "Count" ++ nl)) ;;;
    emit (EWrite output_file (repeat_char "-" 60 ++ " " ++ repeat_char "-" 10 ++ nl)) ;;;
    mapM_ (fun (item : string * nat) => let (package_spec, count) := item in
                       emit (EWrite output_file (pad 60 package_spec ++ " "
                                                 ++ pad 10 (str_of_nat count) ++ nl)))
          sorted_by_freq) ;;;
  emit (EPrint ("Frequency with versions report saved to: " ++ output_file)).

(** ** [RequirementsScanner.scan_requirements_files]: [os.walk], top down

    A directory tree as [os.scandir] lists it (symbolic links are not
    modelled).  [os.walk] yields a directory before its subdirectories; the
    loop body prunes [dirs] and collects the files of that directory. *)

Inductive entry : Type :=
| EFile (name : string) (contents : option (list string))
| EDir (name : string) (children : list entry).

Definition skip_dirs : list string :=
  [".git"; "__pycache__"; "node_modules"; ".venv"; "venv"; "env"].

Definition join_path (root name : string) : string := root ++ "/" ++ name.

Definition files_here (root : string) (children : list entry) : list manifest :=
  flat_map (fun e => match e with
                     | EFile n c => if String.eqb n "requirements.txt"
                                    then [(join_path root n, c)] else []
                     | EDir _ _ => []
                     end) children.

Fixpoint walk (root : string) (e : entry) {struct e} : list manifest :=
  match e with
  | EFile _ _ => []
  | EDir _ children =>
      app (files_here root children)
        ((fix go (l : list entry) : list manifest :=
            match l with
            | [] => []
            | EFile _ _ :: t => go t
            | (EDir n _ as d) :: t =>
                app (if existsb (String.eqb n) skip_dirs then []
                     else walk (join_path root n) d) (go t)
            end) children)
  end.

Definition scan_requirements_files (base_path : string) (children : list entry)
  : list manifest :=
  walk base_path (EDir "" children).

(** ** [main]

    The run's inputs: the parsed arguments, what the resolved base path is,
    the environment and the answers of the outside world.  Creating the
    output directory and writing the report files are taken to succeed. *)

Inductive base_node : Type := BMissing | BNotDir | BDir (children : list entry).

Record env : Type := mk_env {
  repo_base : option string;          (** argument, or REPO_BASE of .env *)
  base : base_node;                   (** the resolved base path *)
  output_dir : string;
  unique_output : string;
  frequency_output : string;
  ai_analysis : bool;
  skip_ai : bool;
  ai_provider : string;               (** "anthropic" or "openai" *)
  api_key_set : bool;                 (** [os.environ.get(f"{P}_API_KEY")] truthy *)
  user_reply : option string;         (** [input()]; [None]: end of input *)
  analyzer_importable : bool;         (** [from ai_analyzer import AIAnalyzer] *)
  provider_lib_importable : bool;     (** [import anthropic] / [import openai] *)
  api_reply : option string;          (** the API call; [None]: it raises *)
  output_initial : list (string * string)  (** files already in the output dir *)
}.

Definition upper_char (c : ascii) : ascii :=
  if is_lower c then ascii_of_nat (code c - 32) else c.

Fixpoint upper (s : string) : string :=
  match s with
  | EmptyString => EmptyString
  | String c t => String (upper_char c) (upper t)
  end.

Definition get_trace : M (list event) := fun tr => (Ok tr, tr).

(** [AIAnalyzer.analyze] (after [__init__] succeeded). *)
Definition analyze (e : env) (provider : string) (analysis_dir output_file : string)
  : M string :=
  emit (EPrint (nl ++ "Analyzing package usage with " ++ upper provider ++ " AI...")) ;;;
  tr <- get_trace ;;
  let fs := fs_apply (output_initial e) tr in
  let frequency := match dget (join_path analysis_dir "packages_by_frequency.txt") fs with
                   | Some c => c | None => "" end in
  if String.eqb frequency "" then raise ValueError else
  (if provider_lib_importable e then ret tt else raise ImportError) ;;;
  recommendations <- (match api_reply e with
                      | Some r => ret r
                      | None => raise Exception_
                      end) ;;
  with_open output_file (
    emit (EWrite output_file ("# AI-Generated Environment Recommendations" ++ nl ++ nl)) ;;;
    emit (EWrite output_file ("Generated using: " ++ upper provider ++ nl ++ nl)) ;;;
    emit (EWrite output_file (repeat_char "=" 80 ++ nl ++ nl)) ;;;
    emit (EWrite output_file recommendations)) ;;;
  emit (EPrint (nl ++ "AI recommendations saved to: " ++ output_file)) ;;;
  ret recommendations.

(** The body of the [try] around the AI analysis. *)
Definition ai_step (e : env) : M unit :=
  (if analyzer_importable e then ret tt else raise ImportError) ;;;
  let provider := lower (ai_provider e) in
  (if existsb (String.eqb provider) ["anthropic"; "openai"] then ret tt
   else raise ValueError) ;;;
  (if api_key_set e then ret tt else raise ValueError) ;;;
  let ai_output := join_path (output_dir e) "ai_recommendations.txt" in
  recommendations <- analyze e provider (output_dir e) ai_output ;;
  emit (EPrint (nl ++ repeat_char "=" 80)) ;;;
  emit (EPrint "AI RECOMMENDATIONS") ;;;
  emit (EPrint (repeat_char "=" 80 ++ nl)) ;;;
  emit (EPrint recommendations) ;;;
  emit (EPrint (nl ++ repeat_char "=" 80)).

(** The two [except] clauses; the exception's own text, printed after the
    colon in the source, is left out. *)
Definition ai_handler (ex : exn) : M unit :=
  match ex with
  | ImportError =>
      emit (EPrint (nl ++ "Could not import AI analyzer")) ;;;
      emit (EPrint "Make sure you've installed the package with AI dependencies:") ;;;
      emit (EPrint "  uv pip install -e .")
  | _ =>
      emit (EPrint (nl ++ "AI analysis failed")) ;;;
      emit (EPrint "Continuing with basic reports only...")
  end.

(** Whether to run the AI analysis. *)
Definition decide_ai (e : env) : M bool :=
  if skip_ai e then emit (EPrint (nl ++ "AI analysis skipped (not recommended)")) ;;; ret false
  else if ai_analysis e then ret true
  else
    emit (EPrint (nl ++ repeat_char "=" 80)) ;;;
    emit (EPrint "AI-POWERED ENVIRONMENT RECOMMENDATIONS") ;;;
    emit (EPrint (repeat_char "=" 80)) ;;;
    emit (EPrint (nl ++ "Would you like AI to analyze your package usage and suggest")) ;;;
    emit (EPrint "optimal reusable environments? (Recommended)") ;;;
    emit (EPrint (nl ++ "This will use " ++ upper (ai_provider e)
                  ++ " to generate intelligent recommendations")) ;;;
    emit (EPrint "based on your package frequency patterns.") ;;;
    let api_key_var := upper (ai_provider e) ++ "_API_KEY" in
    if api_key_set e then
      emit (EPrint (nl ++ api_key_var ++ " detected")) ;;;
      emit (EInput (nl ++ "Run AI analysis? [Y/n]: ")) ;;;
      match user_reply e with
      | None => raise EOFError
      | Some r =>
          let response := lower (strip r) in
          ret (existsb (String.eqb response) [""; "y"; "yes"])
      end
    else
      emit (EPrint (nl ++ api_key_var ++ " not found in environment")) ;;;
      emit (EPrint ("Set " ++ api_key_var
                    ++ " to enable AI analysis, or use --skip-ai to suppress this prompt")) ;;;
      ret false.

(** Everything [main] does once the manifests are found, up to the
    reports. *)
Definition report_phase (e : env) (requirements_files : list manifest) : M unit :=
  emit (EPrint (nl ++ "Extracting packages (normalized)...")) ;;;
  let packages := extract_packages requirements_files in
  emit (EPrint ("Extracted " ++ str_of_nat (List.length packages) ++ " unique package(s)")) ;;;
  emit (EPrint (nl ++ "Extracting packages with versions...")) ;;;
  let package_versions := extract_packages_with_versions requirements_files in
  emit (EPrint ("Extracted " ++ str_of_nat (List.length package_versions)
                ++ " unique package+version combination(s)")) ;;;
  emit (EPrint (nl ++ "Generating reports...")) ;;;
  let unique_out := join_path (output_dir e) (unique_output e) in
  let frequency_out := join_path (output_dir e) (frequency_output e) in
  generate_unique_packages_report packages unique_out ;;;
  generate_frequency_report packages requirements_files frequency_out ;;;
  generate_unique_packages_with_versions_report package_versions
    (join_path (output_dir e) "unique_packages_with_versions.txt") ;;;
  generate_frequency_with_versions_report package_versions requirements_files
    (join_path (output_dir e) "packages_by_frequency_with_versions.txt").

(** The summary printed after the reports. *)
Definition summary_prints (e : env) : M unit :=
  emit (EPrint (nl ++ "Scan complete!")) ;;;
  emit (EPrint (nl ++ "Reports saved to: " ++ output_dir e)) ;;;
  emit (EPrint "  Normalized (package names only):") ;;;
  emit (EPrint ("    - " ++ unique_output e)) ;;;
  emit (EPrint ("    - " ++ frequency_output e)) ;;;
  emit (EPrint "  Version-aware (package+version):") ;;;
  emit (EPrint "    - unique_packages_with_versions.txt") ;;;
  emit (EPrint "    - packages_by_frequency_with_versions.txt").

(** The optional AI analysis at the end of [main], and its [return 0]. *)
Definition ai_phase (e : env) : M nat :=
  run_ai_analysis <- decide_ai e ;;
  (if run_ai_analysis then try_catch (ai_step e) ai_handler else ret tt) ;;;
  ret 0.

Definition main (e : env) : M nat :=
  let no_base := emit (EPrint "Error: No repository base path provided.") ;;;
                 emit (EPrint "Either provide a path as an argument or set REPO_BASE in .env file.") ;;;
                 ret 1 in
  match repo_base e with
  | None => no_base
  | Some rb =>
    if String.eqb rb "" then no_base else
    match base e with
    | BMissing => emit (EPrint ("Error: Repository base path does not exist: " ++ rb)) ;;; ret 1
    | BNotDir => emit (EPrint ("Error: Repository base path is not a directory: " ++ rb)) ;;; ret 1
    | BDir children =>
      emit (EPrint ("Scanning repository base: " ++ rb)) ;;;
      emit (EPrint (nl ++ "Searching for requirements.txt files...")) ;;;
      let requirements_files := scan_requirements_files rb children in
      match requirements_files with
      | [] => emit (EPrint "No requirements.txt files found.") ;;; ret 0
      | _ :: _ =>
        emit (EPrint ("Found " ++ str_of_nat (List.length requirements_files)
                      ++ " requirements.txt file(s)")) ;;;
        report_phase e requirements_files ;;;
        summary_prints e ;;;
        ai_phase e
      end
    end
  end.

(** The process: [exit(main())]; an uncaught exception exits with 1. *)
Definition run_main (e : env) : nat * list event :=
  match main e [] with
  | (Ok n, tr) => (n, tr)
  | (Raise _, tr) => (1, tr)
  end.

(** ** Vocabulary of the properties *)

Fixpoint all_chars (p : ascii -> bool) (s : string) : bool :=
  match s with
  | EmptyString => true
  | String c t => p c && all_chars p t
  end.

Definition first_char (s : string) : option ascii :=
  match s with EmptyString => None | String c _ => Some c end.

Fixpoint last_char (s : string) : option ascii :=
  match s with
  | EmptyString => None
  | String c EmptyString => Some c
  | String _ t => last_char t
  end.

Fixpoint index_of (p : ascii -> bool) (s : string) : option nat :=
  match s with
  | EmptyString => None
  | String c t => if p c then Some 0 else option_map S (index_of p t)
  end.

(** The version clause as the specification words it: in the text after
    the name, the run from the first of [= < > !] up to the next
    whitespace character or the end, trimmed; empty when there is none. *)
Definition spec_version (after : string) : string :=
  match index_of is_op after with
  | None => ""
  | Some i =>
      let tail := substring i (String.length after - i) after in
      strip (match index_of is_space tail with
             | None => tail
             | Some j => substring 0 j tail
             end)
  end.

Definition is_sep (c : ascii) : bool := Ascii.eqb c "_" || Ascii.eqb c "-".

(** Two spellings that differ only in letter case and in [_] versus [-]. *)
Definition equiv_char (a b : ascii) : bool :=
  Ascii.eqb (lower_char a) (lower_char b) || (is_sep a && is_sep b).

Fixpoint name_equiv (s1 s2 : string) : bool :=
  match s1, s2 with
  | EmptyString, EmptyString => true
  | String a t, String b u => equiv_char a b && name_equiv t u
  | _, _ => false
  end.

(** The per-file dedup loops of [extract_packages_with_versions] and of
    [generate_frequency_report] share one shape: a declaration's key is
    counted when it is not yet in the file's [seen_in_file] set. *)
Definition count_of (k : string) (d : list (string * nat)) : nat :=
  match dget k d with Some n => n | None => 0 end.

Definition count_line (keyf : string -> string -> string)
  (st : list (string * nat) * list string) (line : string)
  : list (string * nat) * list string :=
  let (d, seen) := st in
  match parse_requirement line with
  | None => st
  | Some (n, v) =>
      if String.eqb n "" then st else
      let k := keyf n v in
      if existsb (String.eqb k) seen then st
      else (dset k (count_of k d + 1) d, k :: seen)
  end.

Definition count_files (keyf : string -> string -> string) (files : list manifest)
  : list (string * nat) :=
  fold_left (fun d (f : manifest) =>
               match snd f with
               | None => d
               | Some lines => fst (fold_left (count_line keyf) lines (d, []))
               end) files [].

Definition name_key (n _ : string) : string := n.

(** The keys a file declares, line by line. *)
Definition line_keys (keyf : string -> string -> string) (lines : list string) : list string :=
  flat_map (fun line => match parse_requirement line with
                        | Some (n, v) => if String.eqb n "" then [] else [keyf n v]
                        | None => []
                        end) lines.

Definition file_keys (keyf : string -> string -> string) (f : manifest) : list string :=
  match snd f with None => [] | Some lines => line_keys keyf lines end.

(** Order of the frequency reports: higher count first, then the key. *)
Definition freq_before (a b : string * nat) : Prop :=
  snd b < snd a \/ (snd a = snd b /\ String.ltb (fst a) (fst b) = true).

(** The declarations a file makes, line by line, as parsed. *)
Definition line_decls (lines : list string) : list (string * string) :=
  flat_map (fun line => match parse_requirement line with
                        | Some (n, v) => if String.eqb n "" then [] else [(n, v)]
                        | None => []
                        end) lines.

Definition file_decls (f : manifest) : list (string * string) :=
  match snd f with None => [] | Some lines => line_decls lines end.

(** The name aggregate as the set of names declared in [ds], each with the
    set of its non-empty version specs, every set free of repeats. *)
Definition name_aggregate_of (d : list (string * list string))
  (ds : list (string * string)) : Prop :=
  NoDup (dkeys d) /\
  (forall k, In k (dkeys d) <-> exists v, In (k, v) ds) /\
  (forall k vs, dget k d = Some vs ->
     NoDup vs /\ forall v, In v vs <-> (v <> "" /\ In (k, v) ds)).

(** What a computation leaves in file [p], starting from an empty output
    directory. *)
Definition written (m : M unit) (p : string) : option string :=
  dget p (fs_apply [] (snd (m []))).

(** Whether an event opens or writes file [p]. *)
Definition touches (p : string) (ev : event) : bool :=
  match ev with
  | EOpenW q | EWrite q _ => String.eqb p q
  | _ => false
  end.

(** A computation that opens or writes no file other than [q]. *)
Definition writes_only {A} (q : string) (m : M A) : Prop :=
  forall t, exists x, snd (m t) = app t x /\
    forall p, p <> q -> forallb (fun ev => negb (touches p ev)) x = true.

(** What is on disk for file [p]: the pair [(d, b)] of the bytes on disk
    and the bytes still in the buffer of Python's file object.  [open(p,
    'w')] truncates the file at once; [f.write(s)] appends [s] to the
    buffer, and the buffer may pass any leading part of itself to the disk
    (it does when it fills up); closing the file flushes the rest.  Events
    on other files and console output leave [p] alone. *)
Inductive disk_step (p : string) : string * string -> event -> string * string -> Prop :=
| DOpen (d b : string) : disk_step p (d, b) (EOpenW p) ("", "")
| DWrite (d b s b1 b2 : string) :
    b1 ++ b2 = b ++ s -> disk_step p (d, b) (EWrite p s) (d ++ b1, b2)
| DClose (d b : string) : disk_step p (d, b) (EClose p) (d ++ b, "")
| DOther (st : string * string) (ev : event) :
    touches p ev = false -> ev <> EClose p -> disk_step p st ev st.

Inductive disk_run (p : string) : string * string -> list event -> string * string -> Prop :=
| DNil (st : string * string) : disk_run p st [] st
| DCons (st st' st'' : string * string) (ev : event) (tr : list event) :
    disk_step p st ev st' -> disk_run p st' tr st'' -> disk_run p st (ev :: tr) st''.

(** The disk states a report written as [chunks] to [p] may pass through:
    between the open and the close the disk holds a prefix of what was
    written so far (the rest is in the buffer), a run exists where the disk
    stays empty until the close, and after the close the disk holds the
    whole report. *)
Definition report_disk_states (p : string) (chunks : list string) : Prop :=
  (forall st0 i st,
     disk_run p st0 (EOpenW p :: map (EWrite p) (firstn i chunks)) st ->
     fst st ++ snd st = String.concat "" (firstn i chunks)) /\
  (forall st0, disk_run p st0 (EOpenW p :: map (EWrite p) chunks) ("", String.concat "" chunks)) /\
  (forall st0 st,
     disk_run p st0 (EOpenW p :: app (map (EWrite p) chunks) [EClose p]) st ->
     st = (String.concat "" chunks, "")).

(** ** [load_env_file]

    The file is given by its lines as the [for line in f] loop yields them,
    [None] when [env_path.exists()] is false.  Failing reads, which print a
    warning and keep what was loaded, are not modelled. *)

(** [c in s] together with [s.split(c, 1)]: the text before the first [c]
    and the text after it, [None] when [s] holds no [c]. *)
Fixpoint split_once (c : ascii) (s : string) : option (string * string) :=
  match s with
  | EmptyString => None
  | String d t =>
      if Ascii.eqb d c then Some (EmptyString, t)
      else match split_once c t with
           | Some (a, b) => Some (String d a, b)
           | None => None
           end
  end.

(** One iteration of the loop over the lines. *)
Definition env_line (env_vars : list (string * string)) (line0 : string)
  : list (string * string) :=
  let line := strip line0 in
  if String.eqb line "" || startswith "#" line then env_vars
  else match split_once "=" line with
       | Some (key, value) => dset (strip key) (strip value) env_vars
       | None => env_vars
       end.

Definition load_env_file (file : option (list string)) : list (string * string) :=
  match file with
  | None => []
  | Some lines => fold_left env_line lines []
  end.

(** ** [ai_analyzer.py] on its own

    [AIAnalyzer(provider=provider)]: no [api_key] is passed, so the key is
    the environment variable of the lowered provider; [key_set p] is
    whether [os.environ.get] of it is truthy.  Returns [self.provider]. *)
Definition analyzer_init (key_set : string -> bool) (provider : string) : M string :=
  let p := lower provider in
  (if existsb (String.eqb p) ["anthropic"; "openai"] then ret tt else raise ValueError) ;;;
  (if key_set p then ret tt else raise ValueError) ;;;
  ret p.

(** [ai_analyzer.main()] with [sys.argv = argv]; the result is the exit
    status and the trace.  [e] gives the outside world as for [analyze]
    (its [provider_lib_importable], [api_reply] and [output_initial], here
    the files in the analysis directory).  The message printed to stderr
    is recorded without the exception's text. *)
Definition analyzer_main (e : env) (key_set : string -> bool) (argv : list string)
  : nat * list event :=
  match argv with
  | [] | [_] =>
      (1, [EPrint "Usage: python ai_analyzer.py <analysis_dir> [provider]";
           EPrint "  provider: 'anthropic' (default) or 'openai'"])
  | _ :: analysis_dir :: rest =>
      let provider := match rest with p :: _ => p | [] => "anthropic" end in
      let body :=
        p <- analyzer_init key_set provider ;;
        recommendations <- analyze e p analysis_dir
                             (join_path analysis_dir "ai_recommendations.txt") ;;
        emit (EPrint (nl ++ repeat_char "=" 80)) ;;;
        emit (EPrint "AI RECOMMENDATIONS") ;;;
        emit (EPrint (repeat_char "=" 80 ++ nl)) ;;;
        emit (EPrint recommendations) in
      match body [] with
      | (Ok _, tr) => (0, tr)
      | (Raise _, tr) => (1, app tr [EPrint "Error: "])
      end
  end.

(** ** Vocabulary of the further properties *)

(** The tree without the directories that [scan_requirements_files]
    prunes from [dirs], at every depth. *)
Fixpoint prune (e : entry) : entry :=
  match e with
  | EFile n c => EFile n c
  | EDir n children =>
      EDir n ((fix go (l : list entry) : list entry :=
                 match l with
                 | [] => []
                 | EFile n' c :: t => EFile n' c :: go t
                 | (EDir n' _ as d) :: t =>
                     if existsb (String.eqb n') skip_dirs then go t else prune d :: go t
                 end) children)
  end.

(** [os.walk] with a loop body that leaves [dirs] alone: every
    subdirectory is visited, and the files named [requirements.txt] of
    each directory are collected in the same order as by [walk]. *)
Fixpoint os_walk (root : string) (e : entry) {struct e} : list manifest :=
  match e with
  | EFile _ _ => []
  | EDir _ children =>
      app (files_here root children)
        ((fix go (l : list entry) : list manifest :=
            match l with
            | [] => []
            | EFile _ _ :: t => go t
            | (EDir n _ as d) :: t => app (os_walk (join_path root n) d) (go t)
            end) children)
  end.

Definition os_walk_child (root : string) (d : entry) : list manifest :=
  match d with
  | EFile _ _ => []
  | EDir n _ => os_walk (join_path root n) d
  end.

(** Induction over trees, with the hypothesis for every child. *)
Fixpoint entry_ind' (P : entry -> Prop)
  (Hf : forall n c, P (EFile n c))
  (Hd : forall n l, Forall P l -> P (EDir n l)) (e : entry) : P e :=
  match e with
  | EFile n c => Hf n c
  | EDir n l =>
      Hd n l ((fix go (l : list entry) : Forall P l :=
                 match l with
                 | [] => Forall_nil P
                 | x :: t => Forall_cons x (entry_ind' P Hf Hd x) (go t)
                 end) l)
  end.

(** The text of [ai_recommendations.txt] for a provider and a reply. *)
Definition recommendations_text (provider r : string) : string :=
  "# AI-Generated Environment Recommendations" ++ nl ++ nl ++
  "Generated using: " ++ upper provider ++ nl ++ nl ++
  repeat_char "=" 80 ++ nl ++ nl ++ r.

(** The entries a directory contributes below it: [os.walk] descends into
    a subdirectory unless its name is in [skip_dirs]. *)
Definition walk_child (root : string) (d : entry) : list manifest :=
  match d with
  | EFile _ _ => []
  | EDir n _ => if existsb (String.eqb n) skip_dirs then [] else walk (join_path root n) d
  end.

(** The tree as the walk sees it after pruning one directory's entries. *)
Definition prune_child (d : entry) : list entry :=
  match d with
  | EFile n c => [EFile n c]
  | EDir n _ => if existsb (String.eqb n) skip_dirs then [] else [prune d]
  end.

(** Which events a computation may add to the trace. *)
Definition is_input (ev : event) : bool := match ev with EInput _ => true | _ => false end.

Definition only_events (ok : event -> bool) {A} (m : M A) : Prop :=
  forall t, exists x, snd (m t) = app t x /\ forallb ok x = true.

(** * Proofs *)

(** ** Characters *)

Ltac ascii_cases c :=
  destruct c as [[] [] [] [] [] [] [] []]; vm_compute; reflexivity.

Lemma is_alnum_lower_char (c : ascii) : is_alnum (lower_char c) = is_alnum c.
Proof. ascii_cases c. Qed.

Lemma is_namechar_lower_char (c : ascii) : is_namechar (lower_char c) = is_namechar c.
Proof. ascii_cases c. Qed.

Lemma normc_not_upper (c : ascii) :
  is_upper (if Ascii.eqb (lower_char c) "_" then "-"%char else lower_char c) = false.
Proof. ascii_cases c. Qed.

Lemma normc_not_underscore (c : ascii) :
  Ascii.eqb (if Ascii.eqb (lower_char c) "_" then "-"%char else lower_char c) "_" = false.
Proof. ascii_cases c. Qed.

Lemma normc_alnum (c : ascii) :
  is_alnum (if Ascii.eqb (lower_char c) "_" then "-"%char else lower_char c) = is_alnum c.
Proof. ascii_cases c. Qed.

Lemma normc_idem (c : ascii) :
  let n := if Ascii.eqb (lower_char c) "_" then "-"%char else lower_char c in
  (if Ascii.eqb (lower_char n) "_" then "-"%char else lower_char n) = n.
Proof. ascii_cases c. Qed.

Lemma alnum_not_space (c : ascii) : is_alnum c = true -> is_space c = false.
Proof. destruct c as [[] [] [] [] [] [] [] []]; vm_compute; congruence. Qed.

Lemma namechar_not_space (c : ascii) : is_namechar c = true -> is_space c = false.
Proof. destruct c as [[] [] [] [] [] [] [] []]; vm_compute; congruence. Qed.

Lemma namechar_not_hash (c : ascii) : is_namechar c = true -> Ascii.eqb c "#" = false.
Proof. destruct c as [[] [] [] [] [] [] [] []]; vm_compute; congruence. Qed.

Lemma op_not_space (c : ascii) : is_op c = true -> is_space c = false.
Proof. destruct c as [[] [] [] [] [] [] [] []]; vm_compute; congruence. Qed.

Lemma sep_chars (c : ascii) : is_sep c = true ->
  is_namechar c = true /\ is_alnum c = false /\
  (if Ascii.eqb (lower_char c) "_" then "-"%char else lower_char c) = "-"%char.
Proof. destruct c as [[] [] [] [] [] [] [] []]; vm_compute; try congruence; auto. Qed.

(** ** Strings *)

Lemma lstrip_nonspace (c : ascii) (t : string) :
  is_space c = false -> lstrip (String c t) = String c t.
Proof. intros H; simpl; now rewrite H. Qed.

Lemma rstrip_nospace (s : string) :
  all_chars (fun c => negb (is_space c)) s = true -> rstrip s = s.
Proof.
  induction s as [|c t IH]; simpl; intros H; [reflexivity|].
  apply andb_prop in H as [Hc Ht].
  rewrite (IH Ht). destruct (is_space c); [discriminate|reflexivity].
Qed.

Lemma strip_nospace (s : string) :
  all_chars (fun c => negb (is_space c)) s = true -> strip s = s.
Proof.
  intros H; unfold strip. destruct s as [|c t]; [reflexivity|].
  simpl in H. apply andb_prop in H as [Hc Ht].
  rewrite lstrip_nonspace by (destruct (is_space c); auto).
  apply rstrip_nospace. simpl. now rewrite Hc, Ht.
Qed.

Lemma take_while_all (p : ascii -> bool) (s : string) :
  all_chars p (take_while p s) = true.
Proof.
  induction s as [|c t IH]; simpl; [reflexivity|].
  destruct (p c) eqn:E; simpl; [now rewrite E, IH|reflexivity].
Qed.

Lemma substring_full (s : string) : substring 0 (String.length s) s = s.
Proof. induction s as [|c t IH]; simpl; [reflexivity|now rewrite IH]. Qed.

Lemma substring_long (s : string) (m : nat) :
  String.length s <= m -> substring 0 m s = s.
Proof.
  revert m. induction s as [|c t IH]; intros [|m]; simpl; intros H;
    try reflexivity; try lia. rewrite IH by lia. reflexivity.
Qed.

Lemma take_while_index (p : ascii -> bool) (s : string) :
  take_while (fun c => negb (p c)) s =
  match index_of p s with None => s | Some j => substring 0 j s end.
Proof.
  induction s as [|c t IH]; simpl; [reflexivity|].
  destruct (p c); simpl; [reflexivity|].
  rewrite IH. destruct (index_of p t); reflexivity.
Qed.

(** The translation of the [re.search] call agrees with the words of the
    specification. *)
Lemma search_version_spec (rest : string) :
  match search_version rest with Some g => strip g | None => "" end = spec_version rest.
Proof.
  induction rest as [|c t IH]; [reflexivity|].
  unfold search_version, spec_version in *. simpl.
  destruct (is_op c) eqn:Hop; simpl.
  - rewrite substring_full. f_equal.
    pose proof (take_while_index is_space (String c t)) as E.
    simpl in E. exact E.
  - destruct (index_of is_op t) as [i|]; simpl; exact IH.
Qed.

Lemma search_version_shape (rest : string) :
  let v := match search_version rest with Some g => strip g | None => "" end in
  all_chars (fun c => negb (is_space c)) v = true /\
  (v = "" \/ exists c, first_char v = Some c /\ is_op c = true).
Proof.
  induction rest as [|c t IH]; [simpl; auto|].
  unfold search_version in *. simpl.
  destruct (is_op c) eqn:Hop; simpl; [|exact IH].
  rewrite (op_not_space c Hop). simpl.
  rewrite strip_nospace by (simpl; rewrite (op_not_space c Hop); apply take_while_all).
  simpl. rewrite (op_not_space c Hop), take_while_all. split; [reflexivity|].
  right. exists c. auto.
Qed.

Lemma last_char_cons (c : ascii) (r : string) :
  last_char (String c r) = if String.eqb r "" then Some c else last_char r.
Proof. destruct r; reflexivity. Qed.

Lemma upto_last_alnum_last (s : string) :
  upto_last_alnum s = "" \/
  exists c, last_char (upto_last_alnum s) = Some c /\ is_alnum c = true.
Proof.
  induction s as [|c t IH]; simpl; [auto|].
  destruct (String.eqb (upto_last_alnum t) "") eqn:Er; simpl.
  - apply String.eqb_eq in Er. rewrite Er.
    destruct (is_alnum c) eqn:Ea; simpl; [right; exists c; auto|auto].
  - right. destruct IH as [IH|IH]; [rewrite IH in Er; discriminate|].
    destruct (upto_last_alnum t); [discriminate|exact IH].
Qed.

Lemma normalize_cons (c : ascii) (t : string) :
  normalize (String c t) =
  String (if Ascii.eqb (lower_char c) "_" then "-"%char else lower_char c) (normalize t).
Proof. reflexivity. Qed.

Lemma normalize_empty (t : string) : normalize t = "" <-> t = "".
Proof. destruct t; [simpl; tauto|rewrite normalize_cons; split; intros; discriminate]. Qed.

Lemma normalize_no_upper (s : string) :
  all_chars (fun c => negb (is_upper c)) (normalize s) = true.
Proof.
  induction s as [|c t IH]; [reflexivity|].
  rewrite normalize_cons. simpl. now rewrite normc_not_upper, IH.
Qed.

Lemma normalize_no_underscore (s : string) :
  all_chars (fun c => negb (Ascii.eqb c "_")) (normalize s) = true.
Proof.
  induction s as [|c t IH]; [reflexivity|].
  rewrite normalize_cons. simpl. now rewrite normc_not_underscore, IH.
Qed.

Lemma normalize_last (s : string) :
  last_char (normalize s) =
  option_map (fun c => if Ascii.eqb (lower_char c) "_" then "-"%char else lower_char c)
             (last_char s).
Proof.
  induction s as [|c t IH]; [reflexivity|].
  rewrite normalize_cons, !last_char_cons.
  destruct (String.eqb t "") eqn:Et.
  - apply String.eqb_eq in Et; subst; reflexivity.
  - assert (En : String.eqb (normalize t) "" = false).
    { apply String.eqb_neq. intros H. apply (proj1 (normalize_empty t)) in H.
      rewrite H in Et. discriminate Et. }
    now rewrite En.
Qed.

Lemma normalize_idem (s : string) : normalize (normalize s) = normalize s.
Proof.
  induction s as [|c t IH]; [reflexivity|].
  rewrite !normalize_cons, IH. f_equal. apply normc_idem.
Qed.

(** ** Prefixes and the name match *)

Lemma prefix_refl (s : string) : String.prefix s s = true.
Proof.
  induction s as [|c t IH]; simpl; [reflexivity|].
  destruct (ascii_dec c c); [exact IH|contradiction].
Qed.

Lemma prefix_trans (a b c : string) :
  String.prefix a b = true -> String.prefix b c = true -> String.prefix a c = true.
Proof.
  revert b c. induction a as [|x a IH]; [intros b [|z c]; reflexivity|].
  intros [|y b] [|z c]; simpl; try discriminate.
  destruct (ascii_dec x y); [|discriminate]. destruct (ascii_dec y z); [|discriminate].
  subst. destruct (ascii_dec z z); [|contradiction]. apply IH.
Qed.

Lemma prefix_len_eq (r s : string) :
  String.prefix r s = true -> String.length r = String.length s -> r = s.
Proof.
  revert s. induction r as [|x r IH]; intros [|y s]; simpl; try discriminate; auto.
  destruct (ascii_dec x y); [|discriminate]. intros H1 H2. subst. f_equal. auto.
Qed.

Lemma prefix_take_while (p : ascii -> bool) (s : string) :
  String.prefix (take_while p s) s = true.
Proof.
  induction s as [|c t IH]; simpl; [reflexivity|].
  destruct (p c); simpl; [|reflexivity].
  destruct (ascii_dec c c); [exact IH|contradiction].
Qed.

Lemma prefix_upto (s : string) : String.prefix (upto_last_alnum s) s = true.
Proof.
  induction s as [|c t IH]; simpl; [reflexivity|].
  destruct (String.eqb (upto_last_alnum t) "" && negb (is_alnum c)); simpl; [reflexivity|].
  destruct (ascii_dec c c); [exact IH|contradiction].
Qed.

Lemma prefix_all (q : ascii -> bool) (p s : string) :
  String.prefix p s = true -> all_chars q s = true -> all_chars q p = true.
Proof.
  revert s. induction p as [|x p IH]; intros [|y s]; simpl; try discriminate; auto.
  destruct (ascii_dec x y); [|discriminate]. subst.
  intros H1 H2. apply andb_prop in H2 as [H2 H3]. rewrite H2. simpl. eauto.
Qed.

Lemma all_chars_impl (p q : ascii -> bool) (s : string) :
  (forall c, p c = true -> q c = true) -> all_chars p s = true -> all_chars q s = true.
Proof.
  intros Hpq. induction s as [|c t IH]; simpl; [auto|].
  intros H. apply andb_prop in H as [H1 H2]. now rewrite (Hpq c H1), IH.
Qed.

Lemma before_hash_id (s : string) :
  all_chars (fun c => negb (Ascii.eqb c "#")) s = true -> before_hash s = s.
Proof.
  induction s as [|c t IH]; simpl; [auto|].
  intros H. apply andb_prop in H as [H1 H2].
  destruct (Ascii.eqb c "#"); [discriminate|]. now rewrite IH.
Qed.

Lemma substring_past (s : string) (m : nat) : substring (String.length s) m s = "".
Proof. induction s as [|c t IH]; simpl; [destruct m; reflexivity|exact IH]. Qed.

Lemma match_name_shape (line name : string) :
  match_name line = Some name ->
  exists c t, line = String c t /\ is_alnum c = true /\
              name = String c (upto_last_alnum (take_while is_namechar t)).
Proof.
  destruct line as [|c t]; simpl; [discriminate|].
  destruct (is_alnum c) eqn:E; [|discriminate].
  intros H; injection H as <-. eauto.
Qed.

(** A whole string matched as a name consists of name characters. *)
Lemma match_name_full (n : string) :
  match_name n = Some n -> all_chars is_namechar n = true.
Proof.
  intros H. destruct (match_name_shape n n H) as (c & t & -> & Hc & Ht).
  injection Ht as Ht.
  assert (Htw : take_while is_namechar t = t).
  { apply prefix_len_eq.
    - apply prefix_take_while.
    - apply Nat.le_antisymm.
      + pose proof (prefix_take_while is_namechar t) as P.
        clear - P. revert P. generalize (take_while is_namechar t). intros r.
        revert r. induction t as [|x t IH]; intros [|y r]; simpl; try lia; try discriminate.
        destruct (ascii_dec y x); [|discriminate]. intros P. specialize (IH r P). lia.
      + rewrite Ht at 1.
        pose proof (prefix_upto (take_while is_namechar t)) as P.
        clear - P. revert P. generalize (take_while is_namechar t). intros w.
        generalize (upto_last_alnum w). intros r. revert r.
        induction w as [|x w IH]; intros [|y r]; simpl; try lia; try discriminate.
        destruct (ascii_dec y x); [|discriminate]. intros P. specialize (IH r P). lia. }
  simpl. assert (is_namechar c = true) as -> by (unfold is_namechar; now rewrite Hc).
  simpl. rewrite <- Htw. apply take_while_all.
Qed.

(** A whole string matched as a name parses to its normal form with an
    empty version clause. *)
Lemma parse_requirement_name (n : string) :
  match_name n = Some n -> parse_requirement n = Some (normalize n, "").
Proof.
  intros H. pose proof (match_name_full n H) as Hall.
  assert (Hns : all_chars (fun c => negb (is_space c)) n = true).
  { eapply all_chars_impl; [|exact Hall]. intros c Hc. now rewrite namechar_not_space. }
  assert (Hnh : all_chars (fun c => negb (Ascii.eqb c "#")) n = true).
  { eapply all_chars_impl; [|exact Hall]. intros c Hc. now rewrite namechar_not_hash. }
  unfold parse_requirement. rewrite before_hash_id by exact Hnh.
  rewrite strip_nospace by exact Hns.
  destruct (match_name_shape n n H) as (c & t & Hn & _).
  assert (Hp : forall p, all_chars is_namechar p = false -> startswith p n = false).
  { intros p Hp. unfold startswith. destruct (String.prefix p n) eqn:E; [|reflexivity].
    rewrite (prefix_all _ p n E Hall) in Hp. discriminate. }
  rewrite Hn at 1. simpl String.eqb. cbv iota.
  rewrite !Hp by reflexivity. simpl orb. cbv iota.
  rewrite H, substring_past. reflexivity.
Qed.

(** ** Case and separator variants *)

Lemma equiv_char_classes (a b : ascii) :
  equiv_char a b = true ->
  is_namechar a = is_namechar b /\ is_alnum a = is_alnum b /\
  (if Ascii.eqb (lower_char a) "_" then "-"%char else lower_char a) =
  (if Ascii.eqb (lower_char b) "_" then "-"%char else lower_char b).
Proof.
  unfold equiv_char. intros H. apply orb_prop in H as [H|H].
  - apply Ascii.eqb_eq in H.
    rewrite <- (is_namechar_lower_char a), <- (is_namechar_lower_char b).
    rewrite <- (is_alnum_lower_char a), <- (is_alnum_lower_char b), H. auto.
  - apply andb_prop in H as [Ha Hb].
    destruct (sep_chars a Ha) as (A1 & A2 & A3), (sep_chars b Hb) as (B1 & B2 & B3).
    rewrite A1, A2, A3, B1, B2, B3. auto.
Qed.

Lemma name_equiv_length (a b : string) :
  name_equiv a b = true -> String.length a = String.length b.
Proof.
  revert b. induction a as [|c a IH]; intros [|d b]; simpl; try discriminate; auto.
  intros H. apply andb_prop in H as [_ H]. f_equal. auto.
Qed.

Lemma name_equiv_take_while (a b : string) :
  name_equiv a b = true ->
  name_equiv (take_while is_namechar a) (take_while is_namechar b) = true.
Proof.
  revert b. induction a as [|c a IH]; intros [|d b]; simpl; try discriminate; auto.
  intros H. apply andb_prop in H as [Hcd H].
  destruct (equiv_char_classes c d Hcd) as (E & _ & _). rewrite E.
  destruct (is_namechar d); simpl; [rewrite Hcd; simpl; apply IH, H|reflexivity].
Qed.

Lemma name_equiv_upto (a b : string) :
  name_equiv a b = true ->
  name_equiv (upto_last_alnum a) (upto_last_alnum b) = true.
Proof.
  revert b. induction a as [|c a IH]; intros [|d b]; simpl; try discriminate; auto.
  intros H. apply andb_prop in H as [Hcd H].
  destruct (equiv_char_classes c d Hcd) as (_ & E & _). rewrite E.
  specialize (IH b H).
  assert (Hl := name_equiv_length _ _ IH).
  assert (Ee : String.eqb (upto_last_alnum a) "" = String.eqb (upto_last_alnum b) "").
  { destruct (upto_last_alnum a), (upto_last_alnum b); simpl in Hl; try discriminate; auto. }
  rewrite Ee. destruct (String.eqb (upto_last_alnum b) "" && negb (is_alnum d)); simpl;
  [reflexivity|now rewrite Hcd, IH].
Qed.

Lemma name_equiv_normalize (a b : string) :
  name_equiv a b = true -> normalize a = normalize b.
Proof.
  revert b. induction a as [|c a IH]; intros [|d b]; simpl; try discriminate; auto.
  intros H. apply andb_prop in H as [Hcd H].
  rewrite !normalize_cons. destruct (equiv_char_classes c d Hcd) as (_ & _ & E).
  rewrite E, (IH b H). reflexivity.
Qed.

Lemma name_equiv_match_name (n1 n2 : string) :
  match_name n1 = Some n1 -> name_equiv n1 n2 = true -> match_name n2 = Some n2.
Proof.
  intros H1 He. destruct (match_name_shape n1 n1 H1) as (c & t & E1 & Hc & Ht).
  subst n1. injection Ht as Ht.
  destruct n2 as [|d u]; simpl in He; [discriminate|].
  apply andb_prop in He as [Hcd Htu].
  destruct (equiv_char_classes c d Hcd) as (_ & Ea & _).
  simpl. rewrite <- Ea, Hc. f_equal. f_equal.
  apply prefix_len_eq.
  - eapply prefix_trans; [apply prefix_upto|apply prefix_take_while].
  - rewrite <- (name_equiv_length _ _ Htu).
    transitivity (String.length (upto_last_alnum (take_while is_namechar t))).
    + symmetry. apply name_equiv_length, name_equiv_upto, name_equiv_take_while, Htu.
    + now rewrite <- Ht.
Qed.

Lemma before_hash_app (a b : string) :
  all_chars (fun c => negb (Ascii.eqb c "#")) a = true ->
  before_hash (a ++ b) = a ++ before_hash b.
Proof.
  induction a as [|c a IH]; simpl; [auto|].
  intros H. apply andb_prop in H as [H1 H2].
  destruct (Ascii.eqb c "#"); [discriminate|]. now rewrite IH.
Qed.

Lemma rstrip_app (a b : string) :
  rstrip b <> "" -> rstrip (a ++ b) = a ++ rstrip b.
Proof.
  intros Hb. induction a as [|c a IH]; simpl; [reflexivity|].
  rewrite IH. destruct a; simpl.
  - destruct (rstrip b); [contradiction|]. rewrite andb_false_r. reflexivity.
  - rewrite andb_false_r. reflexivity.
Qed.

Lemma drop_while_app (p : ascii -> bool) (a b : string) :
  all_chars p a = true -> drop_while p (a ++ b) = drop_while p b.
Proof.
  induction a as [|c a IH]; simpl; [auto|].
  intros H. apply andb_prop in H as [H1 H2]. rewrite H1. auto.
Qed.

Lemma str_length_app (a b : string) :
  String.length (a ++ b) = String.length a + String.length b.
Proof. induction a; simpl; auto. Qed.

(** ** Claims about [parse_requirement] *)

(** C4: after the comment is stripped, the version clause returned is the
    run, in the text after the matched name, from the first of [= < > !]
    up to the next whitespace character or the end, trimmed, and empty if
    there is no such character. *)
Theorem parse_requirement_version_clause (line0 n v : string) :
  parse_requirement line0 = Some (n, v) ->
  exists name, match_name (strip (before_hash line0)) = Some name /\
    v = spec_version (substring (String.length name)
                       (String.length (strip (before_hash line0)))
                       (strip (before_hash line0))).
Proof.
  unfold parse_requirement. set (line := strip (before_hash line0)). intros H.
  destruct (String.eqb line ""); [discriminate|].
  destruct (_ || _); [discriminate|].
  destruct (match_name line) as [name|]; [|discriminate].
  injection H as _ <-. exists name. split; [reflexivity|].
  apply search_version_spec.
Qed.

Lemma parse_requirement_version_clause_witness :
  parse_requirement "requests>=2.28,<3.0  # pinned" = Some ("requests", ">=2.28,<3.0") /\
  exists name, match_name (strip (before_hash "requests>=2.28,<3.0  # pinned")) = Some name /\
    ">=2.28,<3.0" = spec_version (substring (String.length name)
                       (String.length (strip (before_hash "requests>=2.28,<3.0  # pinned")))
                       (strip (before_hash "requests>=2.28,<3.0  # pinned"))).
Proof.
  split; [reflexivity|].
  apply (parse_requirement_version_clause "requests>=2.28,<3.0  # pinned" "requests").
  reflexivity.
Defined.

(** C5: two spellings of a package name that differ only in letter case
    and in [_] versus [-] parse to the same normalized name, lowercase with
    every [_] turned into [-]; normalization is idempotent. *)
Theorem parse_requirement_variants_collapse (n1 n2 : string) :
  match_name n1 = Some n1 -> name_equiv n1 n2 = true ->
  parse_requirement n1 = Some (normalize n1, "") /\
  parse_requirement n2 = Some (normalize n1, "") /\
  (forall x, normalize (normalize x) = normalize x).
Proof.
  intros H1 He. split; [|split].
  - now apply parse_requirement_name.
  - rewrite (name_equiv_normalize n1 n2 He).
    apply parse_requirement_name, (name_equiv_match_name n1); assumption.
  - apply normalize_idem.
Qed.

Lemma parse_requirement_variants_collapse_witness :
  normalize "Foo_Bar" = "foo-bar" /\
  parse_requirement "Foo_Bar" = Some ("foo-bar", "") /\
  parse_requirement "foo-BAR" = Some ("foo-bar", "").
Proof.
  destruct (parse_requirement_variants_collapse "Foo_Bar" "foo-BAR") as (H1 & H2 & _);
    [reflexivity|reflexivity|].
  split; [reflexivity|]. split; [exact H1|exact H2].
Defined.

(** C9: [parse_requirement] is total and yields either nothing or a name
    that is non-empty, lowercase, free of [_] and starts and ends with an
    alphanumeric character, with a version clause free of whitespace that,
    when non-empty, starts with one of [= < > !]. *)
Theorem parse_requirement_shape (line0 : string) :
  parse_requirement line0 = None \/
  exists n v, parse_requirement line0 = Some (n, v) /\
    n <> "" /\
    all_chars (fun c => negb (is_upper c)) n = true /\
    all_chars (fun c => negb (Ascii.eqb c "_")) n = true /\
    (exists c, first_char n = Some c /\ is_alnum c = true) /\
    (exists c, last_char n = Some c /\ is_alnum c = true) /\
    all_chars (fun c => negb (is_space c)) v = true /\
    (v = "" \/ exists c, first_char v = Some c /\ is_op c = true).
Proof.
  unfold parse_requirement.
  set (line := strip (before_hash line0)).
  destruct (String.eqb line ""); [now left|].
  destruct (_ || _); [now left|].
  destruct (match_name line) as [name|] eqn:Hm; [right|now left].
  destruct (match_name_shape line name Hm) as (c & t & _ & Hc & ->).
  set (r := upto_last_alnum (take_while is_namechar t)).
  set (rest := substring _ _ line).
  destruct (search_version_shape rest) as [Hv1 Hv2].
  eexists _, _. split; [reflexivity|].
  rewrite normalize_cons.
  split; [discriminate|].
  split; [apply (normalize_no_upper (String c r))|].
  split; [apply (normalize_no_underscore (String c r))|].
  split; [eexists; split; [reflexivity|now rewrite normc_alnum]|].
  split; [|exact (conj Hv1 Hv2)].
  rewrite <- normalize_cons, normalize_last, last_char_cons.
  destruct (String.eqb r "") eqn:Er.
  - eexists; split; [reflexivity|now rewrite normc_alnum].
  - destruct (upto_last_alnum_last (take_while is_namechar t)) as [E|(d & Hd & Ha)].
    + fold r in E. rewrite E in Er. discriminate.
    + fold r in Hd. rewrite Hd. eexists; split; [reflexivity|now rewrite normc_alnum].
Qed.

(** ** Dicts *)

Section DictLemmas.
Context {V : Type}.

Lemma dget_dset_eq (k : string) (v : V) (d : list (string * V)) :
  dget k (dset k v d) = Some v.
Proof.
  induction d as [|[k' v'] d IH]; simpl; [now rewrite String.eqb_refl|].
  destruct (String.eqb k k') eqn:E; simpl; [now rewrite E|now rewrite E].
Qed.

Lemma dget_dset_neq (k k' : string) (v : V) (d : list (string * V)) :
  k <> k' -> dget k (dset k' v d) = dget k d.
Proof.
  intros Hne. induction d as [|[k'' v'] d IH]; simpl.
  - destruct (String.eqb k k') eqn:E; [apply String.eqb_eq in E; contradiction|reflexivity].
  - destruct (String.eqb k' k'') eqn:E'; simpl.
    + apply String.eqb_eq in E'. subst k''.
      destruct (String.eqb k k') eqn:E; [apply String.eqb_eq in E; contradiction|reflexivity].
    + destruct (String.eqb k k''); [reflexivity|exact IH].
Qed.

Lemma dkeys_dset (k : string) (v : V) (d : list (string * V)) :
  forall x, In x (dkeys (dset k v d)) <-> x = k \/ In x (dkeys d).
Proof.
  induction d as [|[k' v'] d IH]; simpl; intros x; [firstorder congruence|].
  destruct (String.eqb k k') eqn:E; simpl.
  - apply String.eqb_eq in E. subst. firstorder congruence.
  - rewrite IH. firstorder congruence.
Qed.

Lemma dset_nodup (k : string) (v : V) (d : list (string * V)) :
  NoDup (dkeys d) -> NoDup (dkeys (dset k v d)).
Proof.
  induction d as [|[k' v'] d IH]; simpl; intros H.
  - constructor; [simpl; tauto|constructor].
  - inversion H as [|? ? Hn Hd]; subst.
    destruct (String.eqb k k') eqn:E; simpl; constructor; auto.
    rewrite dkeys_dset. intros [->|Hin]; [|contradiction].
    rewrite String.eqb_refl in E. discriminate.
Qed.

Lemma dget_in (k : string) (d : list (string * V)) :
  In k (dkeys d) <-> exists v, dget k d = Some v.
Proof.
  induction d as [|[k' v'] d IH]; simpl; [split; [tauto|intros [? ?]; discriminate]|].
  destruct (String.eqb k k') eqn:E.
  - apply String.eqb_eq in E. subst. split; [eauto|auto].
  - rewrite <- IH. apply String.eqb_neq in E. split; [intros [H|H]; [congruence|auto]|auto].
Qed.

Lemma dget_some_in (k : string) (v : V) (d : list (string * V)) :
  dget k d = Some v -> In (k, v) d.
Proof.
  induction d as [|[k' v'] d IH]; simpl; [discriminate|].
  destruct (String.eqb k k') eqn:E; [apply String.eqb_eq in E; subst; intros [=->]; auto|auto].
Qed.

Lemma in_dget_some (k : string) (v : V) (d : list (string * V)) :
  NoDup (dkeys d) -> In (k, v) d -> dget k d = Some v.
Proof.
  induction d as [|[k' v'] d IH]; simpl; [tauto|].
  intros Hn [E|Hin]; inversion Hn as [|? ? Hk Hd]; subst.
  - injection E as <- <-. now rewrite String.eqb_refl.
  - destruct (String.eqb k k') eqn:E; [|auto].
    apply String.eqb_eq in E. subst. exfalso. apply Hk.
    apply (in_map fst) in Hin. exact Hin.
Qed.

End DictLemmas.

Lemma count_of_dset_eq (k : string) (n : nat) (d : list (string * nat)) :
  count_of k (dset k n d) = n.
Proof. unfold count_of. now rewrite dget_dset_eq. Qed.

Lemma count_of_dset_neq (k k' : string) (n : nat) (d : list (string * nat)) :
  k <> k' -> count_of k (dset k' n d) = count_of k d.
Proof. intros H. unfold count_of. now rewrite dget_dset_neq. Qed.

(** ** The per-file dedup loops *)

Lemma fold_left_ext {A B} (f g : A -> B -> A) (l : list B) (a : A) :
  (forall x y, f x y = g x y) -> fold_left f l a = fold_left g l a.
Proof. revert a. induction l; simpl; intros; [reflexivity|]. rewrite H. auto. Qed.

Lemma epv_line_eq st line : epv_line st line = count_line full_spec_of st line.
Proof.
  destruct st as [d seen]. unfold epv_line, count_line.
  destruct (parse_requirement line) as [[n v]|]; [|reflexivity].
  destruct (String.eqb n ""); [reflexivity|].
  destruct (existsb (String.eqb (full_spec_of n v)) seen); reflexivity.
Qed.

Lemma pc_line_eq st line : pc_line st line = count_line name_key st line.
Proof.
  destruct st as [d seen]. unfold pc_line, count_line, name_key.
  destruct (parse_requirement line) as [[n v]|]; [|reflexivity].
  destruct (String.eqb n ""); [reflexivity|].
  destruct (existsb (String.eqb n) seen); reflexivity.
Qed.

Lemma extract_packages_with_versions_eq files :
  extract_packages_with_versions files = count_files full_spec_of files.
Proof.
  unfold extract_packages_with_versions, count_files.
  apply fold_left_ext. intros d f. destruct (snd f); [|reflexivity].
  f_equal. apply fold_left_ext. intros. apply epv_line_eq.
Qed.

Lemma package_counts_of_eq files : package_counts_of files = count_files name_key files.
Proof.
  unfold package_counts_of, count_files.
  apply fold_left_ext. intros d f. destruct (snd f); [|reflexivity].
  f_equal. apply fold_left_ext. intros. apply pc_line_eq.
Qed.

Lemma existsb_cons_eqb (k x : string) (l : list string) :
  existsb (String.eqb k) (x :: l) = String.eqb k x || existsb (String.eqb k) l.
Proof. reflexivity. Qed.

Lemma count_lines_inv (keyf : string -> string -> string) (lines : list string) :
  forall d seen k,
  count_of k (fst (fold_left (count_line keyf) lines (d, seen))) =
    count_of k d + (if existsb (String.eqb k) seen then 0
                    else if existsb (String.eqb k) (line_keys keyf lines) then 1 else 0) /\
  existsb (String.eqb k) (snd (fold_left (count_line keyf) lines (d, seen))) =
    existsb (String.eqb k) seen || existsb (String.eqb k) (line_keys keyf lines).
Proof.
  induction lines as [|l ls IH]; intros d seen k.
  - simpl. rewrite orb_false_r. split; [destruct (existsb _ seen); lia|reflexivity].
  - cbn [fold_left]. unfold line_keys. cbn [flat_map]. fold (line_keys keyf ls).
    change (count_line keyf (d, seen) l) with
      (match parse_requirement l with
       | None => (d, seen)
       | Some (n, v) =>
           if String.eqb n "" then (d, seen) else
           let kk := keyf n v in
           if existsb (String.eqb kk) seen then (d, seen)
           else (dset kk (count_of kk d + 1) d, kk :: seen)
       end).
    destruct (parse_requirement l) as [[n v]|]; [|cbn [app]; apply IH].
    destruct (String.eqb n ""); [cbn [app]; apply IH|].
    cbn [app]. rewrite existsb_cons_eqb.
    destruct (existsb (String.eqb (keyf n v)) seen) eqn:Hs.
    + destruct (IH d seen k) as [IH1 IH2]. rewrite IH1, IH2.
      destruct (String.eqb k (keyf n v)) eqn:Ek; [|split; reflexivity].
      apply String.eqb_eq in Ek. rewrite <- Ek in Hs. rewrite Hs. auto.
    + destruct (IH (dset (keyf n v) (count_of (keyf n v) d + 1) d) (keyf n v :: seen) k)
        as [IH1 IH2].
      rewrite IH1, IH2, existsb_cons_eqb.
      destruct (String.eqb k (keyf n v)) eqn:Ek.
      * apply String.eqb_eq in Ek. rewrite <- Ek in Hs |- *. rewrite Hs, count_of_dset_eq.
        simpl. split; [lia|reflexivity].
      * apply String.eqb_neq in Ek. rewrite count_of_dset_neq by exact Ek. simpl.
        split; reflexivity.
Qed.

Lemma count_files_snoc (keyf : string -> string -> string) (files : list manifest)
  (f : manifest) (k : string) :
  count_of k (count_files keyf (app files [f])) =
  count_of k (count_files keyf files) +
  (if existsb (String.eqb k) (file_keys keyf f) then 1 else 0).
Proof.
  unfold count_files at 1. rewrite fold_left_app. cbn [fold_left].
  fold (count_files keyf files). unfold file_keys.
  destruct (snd f) as [lines|]; [|simpl; lia].
  apply (count_lines_inv keyf lines (count_files keyf files) [] k).
Qed.

(** The count of a key is the number of files declaring it. *)
Lemma count_files_filter (keyf : string -> string -> string) (files : list manifest)
  (k : string) :
  count_of k (count_files keyf files) =
  List.length (filter (fun f => existsb (String.eqb k) (file_keys keyf f)) files).
Proof.
  induction files as [|f files IH] using rev_ind; [reflexivity|].
  rewrite count_files_snoc, IH, filter_app, length_app. simpl.
  destruct (existsb (String.eqb k) (file_keys keyf f)); reflexivity.
Qed.

Lemma dset_pos (k : string) (n : nat) (d : list (string * nat)) :
  1 <= n -> Forall (fun kv => 1 <= snd kv) d -> Forall (fun kv => 1 <= snd kv) (dset k n d).
Proof.
  intros Hn Hp. induction d as [|[k' v'] d IHd]; simpl.
  - constructor; [exact Hn|constructor].
  - inversion Hp; subst. destruct (String.eqb k k'); constructor; auto.
Qed.

Lemma count_line_nodup_pos (keyf : string -> string -> string)
  (d : list (string * nat)) (seen : list string) (l : string) :
  NoDup (dkeys d) -> Forall (fun kv => 1 <= snd kv) d ->
  NoDup (dkeys (fst (count_line keyf (d, seen) l))) /\
  Forall (fun kv => 1 <= snd kv) (fst (count_line keyf (d, seen) l)).
Proof.
  intros Hn Hp. unfold count_line.
  destruct (parse_requirement l) as [[n v]|]; [|auto].
  destruct (String.eqb n ""); [auto|].
  destruct (existsb (String.eqb (keyf n v)) seen); [auto|].
  split; [now apply dset_nodup|apply dset_pos; [lia|exact Hp]].
Qed.

Lemma count_lines_nodup_pos (keyf : string -> string -> string) (lines : list string) :
  forall d seen,
  NoDup (dkeys d) -> Forall (fun kv => 1 <= snd kv) d ->
  NoDup (dkeys (fst (fold_left (count_line keyf) lines (d, seen)))) /\
  Forall (fun kv => 1 <= snd kv) (fst (fold_left (count_line keyf) lines (d, seen))).
Proof.
  induction lines as [|l ls IH]; intros d seen Hn Hp; [simpl; auto|].
  cbn [fold_left].
  destruct (count_line_nodup_pos keyf d seen l Hn Hp) as [Hn' Hp'].
  destruct (count_line keyf (d, seen) l) as [d' seen']. apply IH; assumption.
Qed.

Lemma count_files_nodup_pos (keyf : string -> string -> string) (files : list manifest) :
  NoDup (dkeys (count_files keyf files)) /\
  Forall (fun kv => 1 <= snd kv) (count_files keyf files).
Proof.
  unfold count_files.
  assert (H : forall d, NoDup (dkeys d) -> Forall (fun kv => 1 <= snd kv) d ->
    NoDup (dkeys (fold_left (fun d (f : manifest) => match snd f with
                                 | None => d
                                 | Some lines => fst (fold_left (count_line keyf) lines (d, []))
                                 end) files d)) /\
    Forall (fun kv => 1 <= snd kv)
      (fold_left (fun d (f : manifest) => match snd f with
                                 | None => d
                                 | Some lines => fst (fold_left (count_line keyf) lines (d, []))
                                 end) files d)).
  { induction files as [|f files IH]; intros d Hn Hp; [simpl; auto|].
    simpl. apply IH; destruct (snd f); auto; apply count_lines_nodup_pos; auto. }
  apply H; constructor.
Qed.

(** ** Claim C2 *)

(** C2: a manifest file adds at most one to the count of any full-spec key
    and to the frequency of any name: exactly one when it declares the key
    on at least one line, however many, and nothing otherwise.  A file with
    [pkg==1.0] on two lines counts once for [pkg==1.0] and once for [pkg]. *)
Theorem per_file_dedup (files : list manifest) (f : manifest) (k : string) :
  count_of k (extract_packages_with_versions (app files [f])) =
    count_of k (extract_packages_with_versions files) +
    (if existsb (String.eqb k) (file_keys full_spec_of f) then 1 else 0) /\
  count_of k (package_counts_of (app files [f])) =
    count_of k (package_counts_of files) +
    (if existsb (String.eqb k) (file_keys name_key f) then 1 else 0) /\
  extract_packages_with_versions
    [("requirements.txt", Some ["pkg==1.0" ++ nl; "pkg==1.0" ++ nl])] = [("pkg==1.0", 1)] /\
  package_counts_of
    [("requirements.txt", Some ["pkg==1.0" ++ nl; "pkg==1.0" ++ nl])] = [("pkg", 1)].
Proof.
  rewrite !extract_packages_with_versions_eq, !package_counts_of_eq.
  split; [apply count_files_snoc|]. split; [apply count_files_snoc|].
  split; vm_compute; reflexivity.
Qed.

(** ** Sorting *)

Section SortLemmas.
Context {A : Type} (le : A -> A -> bool).
Hypothesis le_total : forall a b, le a b = false -> le b a = true.

Lemma insert_by_perm (x : A) (l : list A) : Permutation (insert_by le x l) (x :: l).
Proof.
  induction l as [|y l IH]; simpl; [reflexivity|].
  destruct (le x y); [reflexivity|].
  rewrite IH. apply perm_swap.
Qed.

Lemma sort_by_perm (l : list A) : Permutation (sort_by le l) l.
Proof.
  induction l as [|x l IH]; simpl; [reflexivity|].
  rewrite insert_by_perm, IH. reflexivity.
Qed.

Lemma insert_by_sorted (x : A) (l : list A) :
  Sorted (fun a b => le a b = true) l -> Sorted (fun a b => le a b = true) (insert_by le x l).
Proof.
  induction l as [|y l IH]; simpl; intros H; [repeat constructor|].
  destruct (le x y) eqn:E; [constructor; [exact H|constructor; exact E]|].
  inversion H as [|? ? Hl Hh]; subst. constructor; [now apply IH|].
  destruct l as [|z l]; simpl; [constructor; now apply le_total|].
  inversion Hh; subst. destruct (le x z); constructor; [now apply le_total|assumption].
Qed.

Lemma sort_by_sorted (l : list A) : Sorted (fun a b => le a b = true) (sort_by le l).
Proof. induction l; simpl; [constructor|now apply insert_by_sorted]. Qed.

Hypothesis le_trans : forall a b c, le a b = true -> le b c = true -> le a c = true.
Hypothesis le_antisym : forall a b, le a b = true -> le b a = true -> a = b.

Lemma sort_by_strongly_sorted (l : list A) :
  StronglySorted (fun a b => le a b = true) (sort_by le l).
Proof.
  apply Sorted_StronglySorted; [intros a b c; apply le_trans|apply sort_by_sorted].
Qed.

(** Two lists sorted by a total order that are permutations of each other
    are equal: a sort's result depends only on the multiset sorted. *)
Lemma strongly_sorted_perm_eq (l1 l2 : list A) :
  StronglySorted (fun a b => le a b = true) l1 ->
  StronglySorted (fun a b => le a b = true) l2 ->
  Permutation l1 l2 -> l1 = l2.
Proof.
  revert l2. induction l1 as [|x t IH]; intros l2 H1 H2 P.
  - symmetry. now apply Permutation_nil.
  - destruct l2 as [|y u]; [apply Permutation_sym, Permutation_nil in P; discriminate|].
    apply StronglySorted_inv in H1 as [H1 F1]. apply StronglySorted_inv in H2 as [H2 F2].
    assert (Exy : x = y).
    { assert (Hx : In x (y :: u)) by (eapply Permutation_in; [exact P|left; reflexivity]).
      assert (Hy : In y (x :: t)) by (eapply Permutation_in; [symmetry; exact P|left; reflexivity]).
      destruct Hx as [Hx|Hx]; [auto|]. destruct Hy as [Hy|Hy]; [auto|].
      apply le_antisym.
      - rewrite Forall_forall in F1. now apply F1.
      - rewrite Forall_forall in F2. now apply F2. }
    subst y. f_equal. apply IH; auto. eapply Permutation_cons_inv; exact P.
Qed.

Lemma sort_by_perm_eq (l1 l2 : list A) :
  Permutation l1 l2 -> sort_by le l1 = sort_by le l2.
Proof.
  intros P. apply strongly_sorted_perm_eq; try apply sort_by_strongly_sorted.
  rewrite !sort_by_perm. exact P.
Qed.

End SortLemmas.

Lemma ascii_compare_lt_trans (a b c : ascii) :
  Ascii.compare a b = Lt -> Ascii.compare b c = Lt -> Ascii.compare a c = Lt.
Proof.
  unfold Ascii.compare. rewrite !N.compare_lt_iff. lia.
Qed.

Lemma str_compare_lt_trans (a b c : string) :
  String.compare a b = Lt -> String.compare b c = Lt -> String.compare a c = Lt.
Proof.
  revert b c. induction a as [|x a IH]; intros [|y b] [|z c]; simpl; try congruence.
  destruct (Ascii.compare x y) eqn:Exy; destruct (Ascii.compare y z) eqn:Eyz;
    intros H1 H2; try discriminate.
  - apply Ascii.compare_eq_iff in Exy, Eyz. subst y z.
    assert (Ascii.compare x x = Eq) as ->
      by (unfold Ascii.compare; apply N.compare_refl). eauto.
  - apply Ascii.compare_eq_iff in Exy. subst y. now rewrite Eyz.
  - apply Ascii.compare_eq_iff in Eyz. subst z. now rewrite Exy.
  - now rewrite (ascii_compare_lt_trans x y z Exy Eyz).
Qed.

Lemma str_compare_refl (a : string) : String.compare a a = Eq.
Proof.
  induction a as [|x a IH]; simpl; auto.
  assert (Ascii.compare x x = Eq) as -> by (unfold Ascii.compare; apply N.compare_refl).
  exact IH.
Qed.

Lemma str_leb_trans (a b c : string) :
  String.leb a b = true -> String.leb b c = true -> String.leb a c = true.
Proof.
  unfold String.leb.
  destruct (String.compare a b) eqn:Eab; intros H1; try discriminate H1;
  destruct (String.compare b c) eqn:Ebc; intros H2; try discriminate H2.
  - apply String.compare_eq_iff in Eab, Ebc. subst c b. now rewrite str_compare_refl.
  - apply String.compare_eq_iff in Eab. subst b. now rewrite Ebc.
  - apply String.compare_eq_iff in Ebc. subst c. now rewrite Eab.
  - now rewrite (str_compare_lt_trans a b c Eab Ebc).
Qed.

Lemma str_leb_ltb (a b : string) :
  String.leb a b = true -> a <> b -> String.ltb a b = true.
Proof.
  unfold String.leb, String.ltb. destruct (String.compare a b) eqn:E; auto.
  intros _ Hne. apply String.compare_eq_iff in E. contradiction.
Qed.

Lemma freq_le_total (a b : string * nat) : freq_le a b = false -> freq_le b a = true.
Proof.
  unfold freq_le. intros H. apply orb_false_iff in H as [H1 H2].
  apply Nat.ltb_ge in H1. apply orb_true_iff.
  destruct (Nat.eqb (snd a) (snd b)) eqn:E.
  - apply Nat.eqb_eq in E. simpl in H2. right. apply andb_true_iff.
    split; [apply Nat.eqb_eq; lia|].
    destruct (String.leb_total (fst a) (fst b)) as [L|L]; congruence.
  - apply Nat.eqb_neq in E. left. apply Nat.ltb_lt. lia.
Qed.

Lemma freq_le_trans (a b c : string * nat) :
  freq_le a b = true -> freq_le b c = true -> freq_le a c = true.
Proof.
  unfold freq_le. rewrite !orb_true_iff, !andb_true_iff, !Nat.ltb_lt, !Nat.eqb_eq.
  intros [H1|[H1 H1']] [H2|[H2 H2']]; try (left; lia).
  right. split; [lia|]. eapply str_leb_trans; eauto.
Qed.

Lemma freq_le_antisym (a b : string * nat) :
  freq_le a b = true -> freq_le b a = true -> a = b.
Proof.
  destruct a as [x n], b as [y m]. unfold freq_le. simpl.
  rewrite !orb_true_iff, !andb_true_iff, !Nat.ltb_lt, !Nat.eqb_eq.
  intros [H1|[H1 H1']] [H2|[H2 H2']]; try lia.
  subst m. f_equal. now apply String.leb_antisym.
Qed.

Lemma strongly_sorted_freq_strict (l : list (string * nat)) :
  StronglySorted (fun a b => freq_le a b = true) l -> NoDup (map fst l) ->
  StronglySorted freq_before l.
Proof.
  induction l as [|a t IH]; intros Hs Hn; [constructor|].
  apply StronglySorted_inv in Hs as [Hs F]. apply NoDup_cons_iff in Hn as [Ha Hn].
  constructor; [now apply IH|].
  rewrite Forall_forall in F |- *. intros b Hb. specialize (F b Hb).
  assert (Hne : fst a <> fst b).
  { intros E. apply Ha. rewrite E. now apply in_map. }
  unfold freq_le in F. unfold freq_before.
  apply orb_true_iff in F as [F|F]; [left; now apply Nat.ltb_lt|].
  apply andb_true_iff in F as [F1 F2]. right.
  split; [now apply Nat.eqb_eq|now apply str_leb_ltb].
Qed.

Lemma sort_by_freq_ok (d : list (string * nat)) :
  NoDup (dkeys d) ->
  StronglySorted freq_before (sort_by_freq d) /\ Permutation (sort_by_freq d) d.
Proof.
  intros Hn. unfold sort_by_freq.
  assert (P : Permutation (sort_by freq_le d) d) by apply sort_by_perm.
  split; [|exact P].
  apply strongly_sorted_freq_strict.
  - apply sort_by_strongly_sorted; [apply freq_le_total|apply freq_le_trans].
  - eapply Permutation_NoDup; [symmetry; apply Permutation_map; exact P|exact Hn].
Qed.

(** ** Claim C6 *)

(** C6: the rows of the names-by-frequency report (over the name counts of
    [generate_frequency_report]) and of the full-specs-by-frequency report
    (over [extract_packages_with_versions]) are all the entries of the
    aggregate, each before the next by strictly higher count or, at equal
    count, by a strictly smaller key; the counts [{a:3, b:3, c:5}] come out
    as [c, a, b]. *)
Theorem frequency_reports_sorted (files : list manifest) :
  StronglySorted freq_before (sort_by_freq (package_counts_of files)) /\
  Permutation (sort_by_freq (package_counts_of files)) (package_counts_of files) /\
  StronglySorted freq_before (sort_by_freq (extract_packages_with_versions files)) /\
  Permutation (sort_by_freq (extract_packages_with_versions files))
              (extract_packages_with_versions files) /\
  map fst (sort_by_freq [("a", 3); ("b", 3); ("c", 5)]) = ["c"; "a"; "b"].
Proof.
  rewrite package_counts_of_eq, extract_packages_with_versions_eq.
  destruct (sort_by_freq_ok (count_files name_key files)) as [H1 H2];
    [apply count_files_nodup_pos|].
  destruct (sort_by_freq_ok (count_files full_spec_of files)) as [H3 H4];
    [apply count_files_nodup_pos|].
  repeat split; auto; vm_compute; reflexivity.
Qed.

(** ** The name aggregate of [extract_packages] *)

Lemma existsb_eqb_in (x : string) (l : list string) :
  existsb (String.eqb x) l = true <-> In x l.
Proof.
  rewrite existsb_exists. split.
  - intros [y [Hy E]]. apply String.eqb_eq in E. now subst.
  - intros H. exists x. split; [exact H|apply String.eqb_refl].
Qed.

Lemma ep_line_some (d : list (string * list string)) (line n v : string) :
  parse_requirement line = Some (n, v) -> String.eqb n "" = false -> NoDup (dkeys d) ->
  let cur := match dget n d with Some l => l | None => [] end in
  NoDup (dkeys (ep_line d line)) /\
  dget n (ep_line d line) =
    Some (if negb (String.eqb v "") && negb (existsb (String.eqb v) cur)
          then app cur [v] else cur) /\
  (forall k, k <> n -> dget k (ep_line d line) = dget k d).
Proof.
  intros Hp Hn Hnd cur. unfold ep_line. rewrite Hp, Hn. cbv zeta.
  subst cur. destruct (dget n d) as [l|] eqn:Eg.
  - rewrite Eg.
    destruct (negb (String.eqb v "") && negb (existsb (String.eqb v) l)).
    + split; [now apply dset_nodup|]. split; [apply dget_dset_eq|].
      intros k Hk. now apply dget_dset_neq.
    + split; [exact Hnd|]. split; [exact Eg|reflexivity].
  - rewrite dget_dset_eq.
    destruct (negb (String.eqb v "") && negb (existsb (String.eqb v) [])).
    + split; [now apply dset_nodup, dset_nodup|]. split; [apply dget_dset_eq|].
      intros k Hk. rewrite !dget_dset_neq by exact Hk. reflexivity.
    + split; [now apply dset_nodup|]. split; [apply dget_dset_eq|].
      intros k Hk. now apply dget_dset_neq.
Qed.

Lemma ep_line_inv (d : list (string * list string)) (ds : list (string * string))
  (line : string) :
  name_aggregate_of d ds -> name_aggregate_of (ep_line d line) (app ds (line_decls [line])).
Proof.
  intros Inv. unfold line_decls. cbn [flat_map]. rewrite app_nil_r.
  destruct (parse_requirement line) as [[n v]|] eqn:Hp;
    [|rewrite app_nil_r; unfold ep_line; now rewrite Hp].
  destruct (String.eqb n "") eqn:Hn;
    [rewrite app_nil_r; unfold ep_line; now rewrite Hp, Hn|].
  destruct Inv as [Hnd [Hkeys Hvs]].
  destruct (ep_line_some d line n v Hp Hn Hnd) as [Hnd' [Hget Hother]].
  set (cur := match dget n d with Some l => l | None => [] end) in Hget.
  assert (Hcur : NoDup cur /\ forall x, In x cur <-> (x <> "" /\ In (n, x) ds)).
  { subst cur. destruct (dget n d) as [l|] eqn:Eg; [now apply Hvs|].
    split; [constructor|]. intros x. simpl. split; [tauto|].
    intros [_ Hin]. assert (Hk : In n (dkeys d)) by (apply Hkeys; eauto).
    apply dget_in in Hk as [w Hw]. congruence. }
  destruct Hcur as [Hcn Hcm].
  split; [exact Hnd'|]. split.
  - intros k. rewrite dget_in. destruct (String.eqb k n) eqn:Ek.
    + apply String.eqb_eq in Ek. subst k. split; [|eauto].
      intros _. exists v. apply in_or_app. right. left. reflexivity.
    + apply String.eqb_neq in Ek. rewrite Hother by exact Ek. rewrite <- dget_in, Hkeys.
      split; intros [w Hw]; exists w.
      * apply in_or_app. now left.
      * apply in_app_or in Hw as [Hw|[Hw|[]]]; [exact Hw|congruence].
  - intros k vs Hk. destruct (String.eqb k n) eqn:Ek.
    + apply String.eqb_eq in Ek. subst k. rewrite Hget in Hk. injection Hk as <-.
      destruct (String.eqb v "") eqn:Ev.
      * apply String.eqb_eq in Ev. subst v. simpl. split; [exact Hcn|].
        intros x. rewrite Hcm. split.
        -- intros [Hx Hin]. split; [exact Hx|]. apply in_or_app. now left.
        -- intros [Hx Hin]. split; [exact Hx|].
           apply in_app_or in Hin as [Hin|[Hin|[]]]; [exact Hin|congruence].
      * simpl. destruct (existsb (String.eqb v) cur) eqn:Ec; simpl.
        -- apply existsb_eqb_in in Ec. split; [exact Hcn|]. intros x. rewrite Hcm. split.
           ++ intros [Hx Hin]. split; [exact Hx|]. apply in_or_app. now left.
           ++ intros [Hx Hin]. apply in_app_or in Hin as [Hin|[Hin|[]]]; [auto|].
              injection Hin as <-. now apply Hcm.
        -- split.
           ++ apply NoDup_app; [exact Hcn|repeat constructor; simpl; tauto|].
              intros x Hx [<-|[]]. rewrite <- existsb_eqb_in in Hx. congruence.
           ++ intros x. rewrite in_app_iff, Hcm, in_app_iff. simpl.
              apply String.eqb_neq in Ev. split.
              ** intros [[Hx Hin]|[<-|[]]]; [auto|]. split; [exact Ev|]. right. now left.
              ** intros [Hx [Hin|[E|[]]]]; [auto|]. injection E as <-. auto.
    + apply String.eqb_neq in Ek. rewrite Hother in Hk by exact Ek.
      destruct (Hvs k vs Hk) as [Hn1 Hm1]. split; [exact Hn1|]. intros x. rewrite Hm1.
      split; intros [Hx Hin]; split; auto.
      * apply in_or_app. now left.
      * apply in_app_or in Hin as [Hin|[Hin|[]]]; [exact Hin|congruence].
Qed.

Lemma ep_lines_inv (lines : list string) :
  forall d ds, name_aggregate_of d ds ->
  name_aggregate_of (fold_left ep_line lines d) (app ds (line_decls lines)).
Proof.
  induction lines as [|l ls IH]; intros d ds Inv.
  - simpl. now rewrite app_nil_r.
  - cbn [fold_left].
    replace (line_decls (l :: ls)) with (app (line_decls [l]) (line_decls ls))
      by (unfold line_decls; cbn [flat_map]; now rewrite app_nil_r).
    rewrite app_assoc. apply IH. now apply ep_line_inv.
Qed.

Lemma extract_packages_inv (files : list manifest) :
  name_aggregate_of (extract_packages files) (flat_map file_decls files).
Proof.
  unfold extract_packages.
  assert (H : forall d ds, name_aggregate_of d ds ->
    name_aggregate_of
      (fold_left (fun packages (req_file : manifest) =>
                    match snd req_file with
                    | None => packages
                    | Some lines => fold_left ep_line lines packages
                    end) files d)
      (app ds (flat_map file_decls files))).
  { induction files as [|f fs IH]; intros d ds Inv; [simpl; now rewrite app_nil_r|].
    cbn [fold_left flat_map]. rewrite app_assoc. apply IH.
    unfold file_decls. destruct (snd f) as [lines|]; [now apply ep_lines_inv|].
    now rewrite app_nil_r. }
  apply (H [] []). split; [constructor|]. split.
  - intros k. simpl. split; [tauto|intros [? []]].
  - intros k vs Hk. discriminate.
Qed.

Lemma in_flat_map_perm {A B} (f : A -> list B) (l l' : list A) :
  Permutation l l' -> forall x, In x (flat_map f l) <-> In x (flat_map f l').
Proof.
  intros P x. rewrite !in_flat_map. split; intros [a [Ha Hx]]; exists a; split; auto.
  - eapply Permutation_in; eauto.
  - eapply Permutation_in; [symmetry; exact P|exact Ha].
Qed.

Lemma name_aggregate_perm (d1 d2 : list (string * list string))
  (ds1 ds2 : list (string * string)) :
  name_aggregate_of d1 ds1 -> name_aggregate_of d2 ds2 ->
  (forall x, In x ds1 <-> In x ds2) ->
  Permutation (dkeys d1) (dkeys d2) /\
  (forall k vs, dget k d1 = Some vs ->
     exists vs', dget k d2 = Some vs' /\ Permutation vs vs').
Proof.
  intros [N1 [K1 V1]] [N2 [K2 V2]] E. split.
  - apply NoDup_Permutation; auto. intros k. rewrite K1, K2.
    split; intros [v Hv]; exists v; apply E; exact Hv.
  - intros k vs Hk.
    assert (Hin : In k (dkeys d2)).
    { apply K2. assert (H1 : In k (dkeys d1)) by (apply dget_in; eauto).
      apply K1 in H1 as [v Hv]. exists v. now apply E. }
    apply dget_in in Hin as [vs' Hvs']. exists vs'. split; [exact Hvs'|].
    destruct (V1 k vs Hk) as [Nv1 Mv1], (V2 k vs' Hvs') as [Nv2 Mv2].
    apply NoDup_Permutation; auto. intros x. rewrite Mv1, Mv2, E. reflexivity.
Qed.

(** ** The count aggregates under a reordering of the files *)

Lemma perm_filter {A} (p : A -> bool) (l l' : list A) :
  Permutation l l' -> Permutation (filter p l) (filter p l').
Proof.
  induction 1 as [|x l l' _ IH|x y l|l l' l'' _ IH1 _ IH2]; simpl.
  - constructor.
  - destruct (p x); [now constructor|exact IH].
  - destruct (p x), (p y); try constructor; reflexivity.
  - etransitivity; eauto.
Qed.

Lemma count_files_perm (keyf : string -> string -> string) (files files' : list manifest) :
  Permutation files files' ->
  forall k, count_of k (count_files keyf files) = count_of k (count_files keyf files').
Proof.
  intros P k. rewrite !count_files_filter. apply Permutation_length.
  now apply perm_filter.
Qed.

Lemma counts_perm (d1 d2 : list (string * nat)) :
  NoDup (dkeys d1) -> Forall (fun kv => 1 <= snd kv) d1 ->
  NoDup (dkeys d2) -> Forall (fun kv => 1 <= snd kv) d2 ->
  (forall k, count_of k d1 = count_of k d2) -> Permutation d1 d2.
Proof.
  intros N1 P1 N2 P2 C.
  assert (Hside : forall da db, NoDup (dkeys da) -> Forall (fun kv => 1 <= snd kv) da ->
            (forall k, count_of k da = count_of k db) ->
            forall kv, In kv da -> In kv db).
  { intros da db Na Pa Cab [k n] Hin.
    assert (Hg : dget k da = Some n) by now apply in_dget_some.
    rewrite Forall_forall in Pa. specialize (Pa _ Hin). simpl in Pa.
    specialize (Cab k). unfold count_of in Cab. rewrite Hg in Cab.
    destruct (dget k db) as [m|] eqn:Hb; [|lia]. subst m. now apply dget_some_in. }
  apply NoDup_Permutation.
  - eapply NoDup_map_inv. exact N1.
  - eapply NoDup_map_inv. exact N2.
  - intros kv. split; [now apply Hside|]. apply Hside; auto.
Qed.

Lemma str_leb_total' (a b : string) : String.leb a b = false -> String.leb b a = true.
Proof. intros H. destruct (String.leb_total a b); congruence. Qed.

Lemma sorted_strings_perm (l l' : list string) :
  Permutation l l' -> sorted_strings l = sorted_strings l'.
Proof.
  apply sort_by_perm_eq; [apply str_leb_total'|apply str_leb_trans|apply String.leb_antisym].
Qed.

Lemma sort_by_freq_perm (l l' : list (string * nat)) :
  Permutation l l' -> sort_by_freq l = sort_by_freq l'.
Proof.
  apply sort_by_perm_eq; [apply freq_le_total|apply freq_le_trans|apply freq_le_antisym].
Qed.

Lemma count_files_perm_list (keyf : string -> string -> string) (files files' : list manifest) :
  Permutation files files' -> Permutation (count_files keyf files) (count_files keyf files').
Proof.
  intros P.
  destruct (count_files_nodup_pos keyf files) as [N1 P1].
  destruct (count_files_nodup_pos keyf files') as [N2 P2].
  apply counts_perm; auto. now apply count_files_perm.
Qed.

(** ** Claim C3 *)

(** C3 (counterexample): two files declaring [pkg==1.0] and [pkg==2.0];
    scanned in the two orders, the names-by-frequency report differs, its
    versions column reading [==1.0, ==2.0] in one and [==2.0, ==1.0] in
    the other: the column lists the specs in the order first seen. *)
Lemma file_order_changes_frequency_report :
  let fa : manifest := ("a/requirements.txt", Some ["pkg==1.0" ++ nl]) in
  let fb : manifest := ("b/requirements.txt", Some ["pkg==2.0" ++ nl]) in
  Permutation [fa; fb] [fb; fa] /\
  extract_packages [fa; fb] = [("pkg", ["==1.0"; "==2.0"])] /\
  extract_packages [fb; fa] = [("pkg", ["==2.0"; "==1.0"])] /\
  written (generate_frequency_report (extract_packages [fa; fb]) [fa; fb] "out") "out" <>
  written (generate_frequency_report (extract_packages [fb; fa]) [fb; fa] "out") "out".
Proof.
  intros fa fb. split; [apply perm_swap|].
  split; [vm_compute; reflexivity|]. split; [vm_compute; reflexivity|].
  vm_compute. intros H. discriminate H.
Qed.

(** C3 (amended): reordering the files changes no count (of a name or of
    a full spec), the name aggregate keeps its names and, for each, its set
    of version specs; the unique-names, unique-full-specs and
    full-specs-by-frequency reports are generated identically, and the
    names-by-frequency report has the same (name, count) rows in the same
    order: only the order of the specs inside its versions column may
    follow the file order. *)
Theorem file_order_irrelevant (files files' : list manifest) (out : string) :
  Permutation files files' ->
  (forall k, count_of k (package_counts_of files) = count_of k (package_counts_of files')) /\
  (forall k, count_of k (extract_packages_with_versions files) =
             count_of k (extract_packages_with_versions files')) /\
  Permutation (dkeys (extract_packages files)) (dkeys (extract_packages files')) /\
  (forall k vs, dget k (extract_packages files) = Some vs ->
     exists vs', dget k (extract_packages files') = Some vs' /\ Permutation vs vs') /\
  generate_unique_packages_report (extract_packages files) out =
    generate_unique_packages_report (extract_packages files') out /\
  generate_unique_packages_with_versions_report (extract_packages_with_versions files) out =
    generate_unique_packages_with_versions_report (extract_packages_with_versions files') out /\
  generate_frequency_with_versions_report (extract_packages_with_versions files) files out =
    generate_frequency_with_versions_report (extract_packages_with_versions files') files' out /\
  List.length (package_counts_of files) = List.length (package_counts_of files') /\
  sort_by_freq (package_counts_of files) = sort_by_freq (package_counts_of files').
Proof.
  intros P.
  rewrite !package_counts_of_eq, !extract_packages_with_versions_eq.
  pose proof (count_files_perm_list name_key files files' P) as Pn.
  pose proof (count_files_perm_list full_spec_of files files' P) as Pv.
  destruct (name_aggregate_perm _ _ _ _ (extract_packages_inv files)
              (extract_packages_inv files') (in_flat_map_perm file_decls files files' P))
    as [Pk Pvs].
  split; [now apply count_files_perm|].
  split; [now apply count_files_perm|].
  split; [exact Pk|]. split; [exact Pvs|].
  split.
  { unfold generate_unique_packages_report.
    now rewrite (sorted_strings_perm _ _ Pk). }
  split.
  { unfold generate_unique_packages_with_versions_report.
    now rewrite (sorted_strings_perm (dkeys _) (dkeys _) (Permutation_map fst Pv)). }
  split.
  { unfold generate_frequency_with_versions_report.
    now rewrite (sort_by_freq_perm _ _ Pv), (Permutation_length Pv), (Permutation_length P). }
  split; [exact (Permutation_length Pn)|].
  exact (sort_by_freq_perm _ _ Pn).
Qed.

Lemma file_order_irrelevant_witness :
  let fa : manifest := ("a/requirements.txt", Some ["pkg==1.0" ++ nl]) in
  let fb : manifest := ("b/requirements.txt", Some ["pkg==2.0" ++ nl]) in
  Permutation [fa; fb] [fb; fa] /\
  sort_by_freq (package_counts_of [fa; fb]) = sort_by_freq (package_counts_of [fb; fa]).
Proof.
  intros fa fb.
  assert (P : Permutation [fa; fb] [fb; fa]) by apply perm_swap.
  split; [exact P|].
  exact (proj2 (proj2 (proj2 (proj2 (proj2 (proj2 (proj2 (proj2
           (file_order_irrelevant [fa; fb] [fb; fa] "out" P))))))))).
Defined.

(** ** How the reports reach their files *)

Lemma bind_emit {B} (ev : event) (k : unit -> M B) (t : list event) :
  bind (emit ev) k t = k tt (app t [ev]).
Proof. reflexivity. Qed.

Lemma mapM_emit {A} (g : A -> M unit) (f : A -> event) (l : list A) :
  (forall x, g x = emit (f x)) ->
  forall t, mapM_ g l t = (Ok tt, app t (map f l)).
Proof.
  intros Hg. induction l as [|x l IH]; intros t; simpl; [now rewrite app_nil_r|].
  unfold bind. rewrite Hg. cbn [emit]. rewrite IH, <- app_assoc. reflexivity.
Qed.

Lemma bind_ok {A B} (m : M A) (k : A -> M B) (t t' : list event) (a : A) :
  m t = (Ok a, t') -> bind m k t = k a t'.
Proof. intros H. unfold bind. now rewrite H. Qed.

Lemma with_open_ok (p : string) (body : M unit) (evs : list event) :
  (forall t, body t = (Ok tt, app t evs)) ->
  forall t, with_open p body t = (Ok tt, app t (EOpenW p :: app evs [EClose p])).
Proof.
  intros Hb t. unfold with_open. rewrite bind_emit. unfold try_catch.
  rewrite (bind_ok _ _ _ _ _ (Hb _)). cbn [emit].
  now rewrite <- !app_assoc.
Qed.

Lemma freq_rows_ok (packages : list (string * list string)) (p : string)
  (l : list (string * nat)) :
  (forall it, In it l -> exists vs, dget (fst it) packages = Some vs) ->
  exists chunks, List.length chunks = List.length l /\
    forall t, mapM_ (freq_row packages p) l t = (Ok tt, app t (map (EWrite p) chunks)).
Proof.
  induction l as [|[k n] l IH]; intros Hin.
  - exists []. split; [reflexivity|]. intros t. simpl. now rewrite app_nil_r.
  - destruct IH as [chunks [Hlen Hrun]]; [intros it Hit; apply Hin; now right|].
    destruct (Hin (k, n) (or_introl eq_refl)) as [vs Hvs]. simpl in Hvs.
    exists ((pad 40 k ++ " " ++ pad 10 (str_of_nat n) ++ " "
             ++ match vs with [] => "any" | _ => join ", " vs end ++ nl) :: chunks).
    split; [simpl; now rewrite Hlen|].
    intros t. cbn [mapM_]. unfold bind at 1. unfold freq_row at 1. rewrite Hvs.
    cbn [emit]. rewrite Hrun, <- app_assoc. reflexivity.
Qed.

Lemma line_keys_decls (keyf : string -> string -> string) (lines : list string) :
  line_keys keyf lines = map (fun nv => keyf (fst nv) (snd nv)) (line_decls lines).
Proof.
  induction lines as [|l ls IH]; [reflexivity|].
  unfold line_keys, line_decls in *. cbn [flat_map]. rewrite map_app, IH.
  destruct (parse_requirement l) as [[n v]|]; [|reflexivity].
  destruct (String.eqb n ""); reflexivity.
Qed.

(** Every name counted by [generate_frequency_report] is a key of the name
    aggregate of the same files: [packages[package]] does not raise. *)
Lemma package_counts_in_packages (files : list manifest) (k : string) :
  In k (dkeys (package_counts_of files)) ->
  exists vs, dget k (extract_packages files) = Some vs.
Proof.
  rewrite package_counts_of_eq. intros Hk.
  apply dget_in in Hk as [n Hn].
  destruct (count_files_nodup_pos name_key files) as [_ Hpos].
  rewrite Forall_forall in Hpos. specialize (Hpos _ (dget_some_in _ _ _ Hn)). simpl in Hpos.
  assert (Hc : count_of k (count_files name_key files) = n) by (unfold count_of; now rewrite Hn).
  rewrite count_files_filter in Hc.
  destruct (filter (fun f => existsb (String.eqb k) (file_keys name_key f)) files)
    as [|f fs] eqn:Hf; [simpl in Hc; lia|].
  assert (Hin : In f (filter (fun f => existsb (String.eqb k) (file_keys name_key f)) files))
    by (rewrite Hf; now left).
  apply filter_In in Hin as [Hin Hex]. apply existsb_eqb_in in Hex.
  apply dget_in. destruct (extract_packages_inv files) as [_ [Hkeys _]]. apply Hkeys.
  unfold file_keys in Hex. unfold file_decls.
  destruct (snd f) as [lines|] eqn:Hl; [|contradiction].
  rewrite line_keys_decls, in_map_iff in Hex. destruct Hex as [[n' v] [E Hd]].
  unfold name_key in E. simpl in E. subst n'. exists v. apply in_flat_map. exists f. split; [exact Hin|].
  unfold file_decls. now rewrite Hl.
Qed.

Lemma sort_by_length {A} (le : A -> A -> bool) (l : list A) :
  List.length (sort_by le l) = List.length l.
Proof. apply Permutation_length. apply sort_by_perm. Qed.

Lemma str_append_assoc (a b c : string) : (a ++ b) ++ c = a ++ (b ++ c).
Proof. induction a; simpl; congruence. Qed.

Lemma str_append_nil_r (a : string) : a ++ "" = a.
Proof. induction a; simpl; congruence. Qed.

Lemma concat_cons (x : string) (l : list string) :
  String.concat "" (x :: l) = x ++ String.concat "" l.
Proof. destruct l; simpl; [now rewrite str_append_nil_r|reflexivity]. Qed.

Lemma fs_apply_app (fs : list (string * string)) (t1 t2 : list event) :
  fs_apply fs (app t1 t2) = fs_apply (fs_apply fs t1) t2.
Proof.
  revert fs. induction t1 as [|ev t1 IH]; intros fs; [reflexivity|].
  destruct ev; simpl; apply IH.
Qed.

Lemma fs_apply_writes (fs : list (string * string)) (p c : string) (l : list string) :
  dget p fs = Some c ->
  dget p (fs_apply fs (map (EWrite p) l)) = Some (c ++ String.concat "" l).
Proof.
  revert fs c. induction l as [|x l IH]; intros fs c Hc; cbn [map fs_apply].
  - rewrite Hc. simpl. now rewrite str_append_nil_r.
  - rewrite Hc. rewrite (IH _ (c ++ x)) by apply dget_dset_eq.
    rewrite concat_cons, str_append_assoc. reflexivity.
Qed.

Lemma firstn_map {A B} (f : A -> B) (i : nat) (l : list A) :
  firstn i (map f l) = map f (firstn i l).
Proof.
  revert l. induction i as [|i IH]; intros [|x l]; simpl; auto. now rewrite IH.
Qed.

(** ** Claim C10 *)

Lemma take_while_app_stop (p : ascii -> bool) (a b : string) :
  all_chars p a = true -> (b = "" \/ exists c, first_char b = Some c /\ p c = false) ->
  take_while p (a ++ b) = a.
Proof.
  induction a as [|c t IH]; simpl; intros Ha Hb.
  - destruct Hb as [->|[c [Hc Hp]]]; [reflexivity|].
    destruct b as [|d u]; [reflexivity|]. simpl in Hc. injection Hc as ->. simpl.
    now rewrite Hp.
  - apply andb_prop in Ha as [H1 H2]. rewrite H1. now rewrite IH.
Qed.

Lemma prefix_stop (P a t : string) (c : ascii) :
  all_chars is_namechar a = true -> is_namechar c = false ->
  String.prefix P (a ++ String c t) = true ->
  drop_while is_namechar P = "" \/ first_char (drop_while is_namechar P) = Some c.
Proof.
  revert P. induction a as [|x a IH]; intros [|d P] Ha Hc H; simpl in *; auto.
  - destruct (ascii_dec d c); [subst; rewrite Hc; now right|discriminate].
  - apply andb_prop in Ha as [H1 H2].
    destruct (ascii_dec d x); [subst; rewrite H1; now apply IH|discriminate].
Qed.

Lemma drop_while_all (p : ascii -> bool) (s : string) :
  all_chars p s = true -> drop_while p s = "".
Proof.
  induction s as [|c t IH]; simpl; [auto|].
  intros H. apply andb_prop in H as [H1 H2]. rewrite H1. auto.
Qed.

Lemma rstrip_app_nospace (a b : string) :
  all_chars (fun c => negb (is_space c)) a = true -> rstrip (a ++ b) = a ++ rstrip b.
Proof.
  intros Ha. destruct (String.eqb (rstrip b) "") eqn:E; [|apply rstrip_app; now apply String.eqb_neq].
  apply String.eqb_eq in E. rewrite E, str_append_nil_r.
  induction a as [|c a IH]; [exact E|].
  simpl in Ha |- *. apply andb_prop in Ha as [H1 H2]. rewrite (IH H2).
  destruct (is_space c); [discriminate|reflexivity].
Qed.

Lemma rstrip_first (s : string) : rstrip s = "" \/ first_char (rstrip s) = first_char s.
Proof.
  destruct s as [|c t]; simpl; [auto|].
  destruct (is_space c && String.eqb (rstrip t) ""); auto.
Qed.

Lemma substring_app_len (a b : string) (m : nat) :
  substring (String.length a) m (a ++ b) = substring 0 m b.
Proof. induction a as [|c a IH]; simpl; [reflexivity|exact IH]. Qed.

(** How a line parses once it is stripped to a whole name followed by text
    that does not continue the name. *)
Lemma parse_after_name (L n u : string) :
  match_name n = Some n -> strip (before_hash L) = n ++ u ->
  (u = "" \/ exists c t, u = String c t /\ is_namechar c = false /\
                         c <> ":"%char /\ c <> "+"%char) ->
  parse_requirement L =
    Some (normalize n, match search_version u with Some g => strip g | None => "" end).
Proof.
  intros Hn Hs Hu. pose proof (match_name_full n Hn) as Hall.
  destruct (match_name_shape n n Hn) as (c0 & t0 & En & Hc0 & Ht0).
  assert (Hstop : u = "" \/ exists c, first_char u = Some c /\ is_namechar c = false).
  { destruct Hu as [->|(c & t & -> & Hc & _)]; [now left|right; now exists c]. }
  unfold parse_requirement. rewrite Hs.
  assert (Hne : String.eqb (n ++ u) "" = false) by (rewrite En; reflexivity).
  rewrite Hne.
  assert (Hp : forall P, drop_while is_namechar P <> "" ->
             (forall c, first_char (drop_while is_namechar P) = Some c ->
                        c = ":"%char \/ c = "+"%char) ->
             startswith P (n ++ u) = false).
  { intros P H1 H2. unfold startswith.
    destruct (String.prefix P (n ++ u)) eqn:E; [|reflexivity]. exfalso.
    destruct Hu as [->|(c & t & -> & Hc & Hc1 & Hc2)].
    - rewrite str_append_nil_r in E. apply H1, drop_while_all.
      exact (prefix_all _ P n E Hall).
    - destruct (prefix_stop P n t c Hall Hc E) as [E'|E']; [contradiction|].
      destruct (H2 c E'); contradiction. }
  rewrite (Hp "http://"), (Hp "https://"), (Hp "git+")
    by (cbn; first [discriminate | intros c Hc; injection Hc as <-; auto]).
  assert (He : startswith "-e " (n ++ u) = false).
  { unfold startswith. rewrite En. cbn [append String.prefix].
    destruct (ascii_dec "-" c0) as [E|_]; [subst c0; discriminate Hc0|reflexivity]. }
  rewrite He. cbn [orb].
  assert (Hm : match_name (n ++ u) = Some n).
  { assert (Ht : all_chars is_namechar t0 = true)
      by (rewrite En in Hall; simpl in Hall; now apply andb_prop in Hall as [_ H]).
    rewrite En. cbn [append match_name]. rewrite Hc0.
    rewrite (take_while_app_stop is_namechar t0 u Ht Hstop).
    pose proof (take_while_app_stop is_namechar t0 "" Ht (or_introl eq_refl)) as Hid.
    rewrite str_append_nil_r in Hid. rewrite Hid in Ht0. congruence. }
  rewrite Hm. rewrite substring_app_len, substring_long by (rewrite str_length_app; lia).
  reflexivity.
Qed.

Lemma strip_name_extras (n x r : string) :
  match_name n = Some n ->
  all_chars (fun c => negb (is_op c || Ascii.eqb c "#")) x = true ->
  strip (before_hash (n ++ "[" ++ x ++ "]" ++ r)) =
    n ++ ("[" ++ x ++ "]" ++ rstrip (before_hash r)) /\
  strip (before_hash (n ++ r)) = n ++ rstrip (before_hash r).
Proof.
  intros Hn Hx. pose proof (match_name_full n Hn) as Hall.
  destruct (match_name_shape n n Hn) as (c0 & t0 & En & Hc0 & _).
  assert (Hnh : all_chars (fun c => negb (Ascii.eqb c "#")) n = true).
  { eapply all_chars_impl; [|exact Hall]. intros c Hc. now rewrite namechar_not_hash. }
  assert (Hns : all_chars (fun c => negb (is_space c)) n = true).
  { eapply all_chars_impl; [|exact Hall]. intros c Hc. now rewrite namechar_not_space. }
  assert (Hxh : all_chars (fun c => negb (Ascii.eqb c "#")) x = true).
  { eapply all_chars_impl; [|exact Hx]. intros c Hc.
    apply negb_true_iff, orb_false_iff in Hc as [_ H]. now rewrite H. }
  assert (Hl : forall s, lstrip (n ++ s) = n ++ s).
  { intros s. rewrite En. apply lstrip_nonspace. now apply alnum_not_space. }
  unfold strip. rewrite !(before_hash_app n) by exact Hnh. rewrite !Hl.
  split; [|now apply rstrip_app_nospace].
  change ("[" ++ x ++ "]" ++ r) with (String "[" (x ++ String "]" r)).
  change (before_hash (String "[" (x ++ String "]" r)))
    with (String "[" (before_hash (x ++ String "]" r))).
  rewrite before_hash_app by exact Hxh.
  change (before_hash (String "]" r)) with (String "]" (before_hash r)).
  replace (n ++ String "[" (x ++ String "]" (before_hash r)))
    with ((n ++ String "[" x) ++ String "]" (before_hash r))
    by (rewrite str_append_assoc; reflexivity).
  rewrite rstrip_app by (cbn [rstrip]; change (is_space "]") with false; discriminate).
  rewrite str_append_assoc. reflexivity.
Qed.

Lemma count_line_seen (keyf : string -> string -> string)
  (st : list (string * nat) * list string) (l n v : string) :
  parse_requirement l = Some (n, v) -> n <> "" -> In (keyf n v) (snd (count_line keyf st l)).
Proof.
  intros Hp Hn. destruct st as [d seen]. unfold count_line. rewrite Hp.
  apply String.eqb_neq in Hn. rewrite Hn.
  destruct (existsb (String.eqb (keyf n v)) seen) eqn:E; [|now left].
  now apply existsb_eqb_in.
Qed.

Lemma count_lines_seen_mono (keyf : string -> string -> string) (lines : list string) :
  forall st k, In k (snd st) -> In k (snd (fold_left (count_line keyf) lines st)).
Proof.
  induction lines as [|l ls IH]; intros [d seen] k H; [exact H|].
  cbn [fold_left]. apply IH. unfold count_line.
  destruct (parse_requirement l) as [[n v]|]; [|exact H].
  destruct (String.eqb n ""); [exact H|].
  destruct (existsb _ seen); [exact H|now right].
Qed.

Lemma count_line_seen_skip (keyf : string -> string -> string)
  (st : list (string * nat) * list string) (l n v : string) :
  parse_requirement l = Some (n, v) -> In (keyf n v) (snd st) -> count_line keyf st l = st.
Proof.
  intros Hp Hin. destruct st as [d seen]. unfold count_line. rewrite Hp.
  destruct (String.eqb n ""); [reflexivity|].
  apply existsb_eqb_in in Hin. simpl in Hin. now rewrite Hin.
Qed.

(** A line that declares what an earlier line of the same file declared
    changes no count. *)
Lemma count_files_drop_repeat (keyf : string -> string -> string) (a b : string)
  (n v : string) (files1 files2 : list manifest) (p : string) (pre mid post : list string) :
  parse_requirement a = Some (n, v) -> parse_requirement b = Some (n, v) -> n <> "" ->
  count_files keyf (app files1 ((p, Some (app pre (a :: app mid (b :: post)))) :: files2)) =
  count_files keyf (app files1 ((p, Some (app pre (a :: app mid post))) :: files2)).
Proof.
  intros Ha Hb Hn. unfold count_files. rewrite !fold_left_app. cbn [fold_left snd].
  do 2 f_equal. rewrite !fold_left_app. cbn [fold_left]. rewrite !fold_left_app.
  cbn [fold_left]. f_equal.
  set (s1 := count_line keyf (fold_left (count_line keyf) pre _) a).
  assert (H1 : In (keyf n v) (snd s1)) by (apply count_line_seen; assumption).
  apply (count_lines_seen_mono keyf mid) in H1.
  now rewrite (count_line_seen_skip keyf _ b n v Hb H1).
Qed.

(** C10: a requirement with extras, [<name>[<extras>]<rest>], parses as
    [<name><rest>]: the extras are dropped from the name and from the
    full-spec key, so the two forms share both keys, and within one file a
    later line declaring what an earlier one did, with or without extras,
    changes no count.  Here [<name>] is a whole name match, the extras hold
    no [#] and none of [= < > !] (spaces and commas are allowed), and
    [<rest>] does not continue the name; [package[extra]>=1.0] gives
    [package] and [>=1.0]. *)
Theorem parse_requirement_extras_dropped (n x r : string) :
  match_name n = Some n ->
  all_chars (fun c => negb (is_op c || Ascii.eqb c "#")) x = true ->
  (r = "" \/ exists c t, r = String c t /\ is_namechar c = false /\
                         c <> ":"%char /\ c <> "+"%char) ->
  parse_requirement (n ++ "[" ++ x ++ "]" ++ r) = parse_requirement (n ++ r) /\
  (exists v, parse_requirement (n ++ r) = Some (normalize n, v)) /\
  (forall a b, (a = n ++ "[" ++ x ++ "]" ++ r /\ b = n ++ r) \/
               (a = n ++ r /\ b = n ++ "[" ++ x ++ "]" ++ r) ->
   forall (files1 files2 : list manifest) (p : string) (pre mid post : list string),
     extract_packages_with_versions
       (app files1 ((p, Some (app pre (a :: app mid (b :: post)))) :: files2)) =
     extract_packages_with_versions
       (app files1 ((p, Some (app pre (a :: app mid post))) :: files2)) /\
     package_counts_of
       (app files1 ((p, Some (app pre (a :: app mid (b :: post)))) :: files2)) =
     package_counts_of
       (app files1 ((p, Some (app pre (a :: app mid post))) :: files2))) /\
  parse_requirement "package[extra]>=1.0" = Some ("package", ">=1.0").
Proof.
  intros Hn Hx Hr.
  destruct (strip_name_extras n x r Hn Hx) as [S1 S2].
  set (u := rstrip (before_hash r)) in S1, S2.
  assert (Hu : u = "" \/ exists c t, u = String c t /\ is_namechar c = false /\
                                     c <> ":"%char /\ c <> "+"%char).
  { destruct (rstrip_first (before_hash r)) as [E|E]; [now left|].
    fold u in E. destruct Hr as [->|(c & t & -> & Hc & Hc1 & Hc2)]; [now left|].
    destruct u as [|c' t']; [now left|right]. simpl in E.
    destruct (Ascii.eqb c "#"); [discriminate|]. injection E as ->. eauto 7. }
  assert (Hu1 : ("[" ++ x ++ "]" ++ u) = "" \/
                exists c t, "[" ++ x ++ "]" ++ u = String c t /\ is_namechar c = false /\
                            c <> ":"%char /\ c <> "+"%char).
  { right. eexists _, _. split; [reflexivity|]. split; [reflexivity|].
    split; discriminate. }
  rewrite (parse_after_name _ n _ Hn S1 Hu1), (parse_after_name _ n _ Hn S2 Hu).
  assert (Hsv : search_version ("[" ++ x ++ "]" ++ u) = search_version u).
  { unfold search_version. cbn [append drop_while].
    change (negb (is_op "[")) with true. cbv iota.
    rewrite drop_while_app.
    - reflexivity.
    - eapply all_chars_impl; [|exact Hx]. intros c Hc. cbv beta in Hc |- *.
      destruct (is_op c); [discriminate|reflexivity]. }
  rewrite Hsv. split; [reflexivity|]. split; [eauto|]. split; [|vm_compute; reflexivity].
  set (v := match search_version u with Some g => strip g | None => "" end).
  assert (P1 : parse_requirement (n ++ "[" ++ x ++ "]" ++ r) = Some (normalize n, v))
    by (rewrite (parse_after_name _ n _ Hn S1 Hu1), Hsv; reflexivity).
  assert (P2 : parse_requirement (n ++ r) = Some (normalize n, v))
    by (rewrite (parse_after_name _ n _ Hn S2 Hu); reflexivity).
  assert (Hne : normalize n <> "").
  { intros E. apply (proj1 (normalize_empty n)) in E. rewrite E in Hn. discriminate Hn. }
  intros a b Hab files1 files2 p pre mid post.
  assert (Pa : parse_requirement a = Some (normalize n, v) /\
               parse_requirement b = Some (normalize n, v))
    by (destruct Hab as [[-> ->]|[-> ->]]; auto).
  destruct Pa as [Pa Pb].
  rewrite !extract_packages_with_versions_eq, !package_counts_of_eq.
  split; eapply count_files_drop_repeat; eauto.
Qed.

Lemma parse_requirement_extras_dropped_witness :
  parse_requirement ("package" ++ "[" ++ "a, b" ++ "]" ++ ">=1.0") =
    parse_requirement ("package" ++ ">=1.0") /\
  extract_packages_with_versions
    (app [] (("requirements.txt",
              Some (app [] (("package" ++ "[" ++ "a, b" ++ "]" ++ ">=1.0")
                            :: app [] (("package" ++ ">=1.0") :: [])))) :: [])) =
  extract_packages_with_versions
    (app [] (("requirements.txt",
              Some (app [] (("package" ++ "[" ++ "a, b" ++ "]" ++ ">=1.0")
                            :: app [] []))) :: [])).
Proof.
  destruct (parse_requirement_extras_dropped "package" "a, b" ">=1.0") as (H1 & _ & H3 & _).
  - reflexivity.
  - reflexivity.
  - right. exists ">"%char, "=1.0". split; [reflexivity|]. split; [reflexivity|].
    split; discriminate.
  - split; [exact H1|].
    exact (proj1 (H3 _ _ (or_introl (conj eq_refl eq_refl)) [] [] "requirements.txt" [] [] [])).
Defined.

(** ** Claim C7 *)

Lemma disk_run_app (p : string) (st st'' : string * string) (t1 t2 : list event) :
  disk_run p st (app t1 t2) st'' ->
  exists st', disk_run p st t1 st' /\ disk_run p st' t2 st''.
Proof.
  revert st. induction t1 as [|ev t1 IH]; intros st H; cbn [app] in H.
  - exists st. split; [constructor|exact H].
  - inversion H as [|? st1 ? ? ? Hs Hr]; subst.
    destruct (IH st1 Hr) as (st' & H1 & H2). exists st'. split; [econstructor; eauto|exact H2].
Qed.

Lemma disk_write_inv (p s : string) (d b : string) (st : string * string) :
  disk_step p (d, b) (EWrite p s) st -> fst st ++ snd st = d ++ b ++ s.
Proof.
  intros H. inversion H as [|? ? ? b1 b2 E| |? ? Ht]; subst.
  - cbn [fst snd]. rewrite str_append_assoc. congruence.
  - cbn in Ht. now rewrite String.eqb_refl in Ht.
Qed.

Lemma disk_writes_total (p : string) (l : list string) :
  forall d b st, disk_run p (d, b) (map (EWrite p) l) st ->
  fst st ++ snd st = d ++ b ++ String.concat "" l.
Proof.
  induction l as [|x l IH]; intros d b st H; cbn [map] in H.
  - inversion H; subst. cbn. now rewrite str_append_nil_r.
  - inversion H as [|? st1 ? ? ? Hs Hr]; subst. apply disk_write_inv in Hs.
    destruct st1 as [d1 b1]. rewrite (IH d1 b1 st Hr). cbn [fst snd] in Hs.
    rewrite <- str_append_assoc, Hs. rewrite concat_cons, !str_append_assoc. reflexivity.
Qed.

Lemma disk_writes_buffered (p : string) (l : list string) :
  forall d b, disk_run p (d, b) (map (EWrite p) l) (d, b ++ String.concat "" l).
Proof.
  induction l as [|x l IH]; intros d b; cbn [map].
  - rewrite str_append_nil_r. constructor.
  - econstructor.
    + apply (DWrite p d b x "" (b ++ x)). reflexivity.
    + rewrite str_append_nil_r. rewrite concat_cons, <- str_append_assoc. apply IH.
Qed.

Lemma disk_open_inv (p : string) (st st' : string * string) :
  disk_step p st (EOpenW p) st' -> st' = ("", "").
Proof.
  intros H. inversion H as [| | |? ? Ht]; subst; [reflexivity|].
  cbn in Ht. now rewrite String.eqb_refl in Ht.
Qed.

Lemma disk_close_inv (p : string) (d b : string) (st' : string * string) :
  disk_step p (d, b) (EClose p) st' -> st' = (d ++ b, "").
Proof. intros H. inversion H; subst; [reflexivity|congruence]. Qed.

Lemma report_disk_states_all (p : string) (chunks : list string) :
  report_disk_states p chunks.
Proof.
  split; [|split].
  - intros st0 i st H. inversion H as [|? st1 ? ? ? Hs Hr]; subst.
    apply disk_open_inv in Hs. subst st1. apply disk_writes_total in Hr. exact Hr.
  - intros [d0 b0]. econstructor; [apply DOpen|]. apply disk_writes_buffered.
  - intros st0 st H. inversion H as [|? st1 ? ? ? Hs Hr]; subst.
    apply disk_open_inv in Hs. subst st1.
    apply disk_run_app in Hr as ([d b] & H1 & H2).
    apply disk_writes_total in H1. cbn [fst snd] in H1.
    inversion H2 as [|? st2 ? ? ? Hc Hn]; subst. apply disk_close_inv in Hc. subst st2.
    inversion Hn; subst. f_equal. exact H1.
Qed.

Lemma disk_run_app_intro (p : string) (st st' st'' : string * string) (t1 t2 : list event) :
  disk_run p st t1 st' -> disk_run p st' t2 st'' -> disk_run p st (app t1 t2) st''.
Proof.
  induction 1 as [st|st1 st2 st3 ev tr Hs Hr IH]; intros H2; [exact H2|].
  cbn [app]. econstructor; [exact Hs|exact (IH H2)].
Qed.

Lemma unique_report_run (packages : list (string * list string)) (p : string)
  (tr : list event) :
  exists chunks msg,
    generate_unique_packages_report packages p tr =
      (Ok tt, app tr (EOpenW p :: app (map (EWrite p) chunks) [EClose p; EPrint msg])) /\
    List.length chunks = 2 + List.length packages.
Proof.
  unfold generate_unique_packages_report.
  set (sp := sorted_strings (dkeys packages)).
  eexists (_ :: _ :: map (fun k => k ++ nl) sp), _. split.
  - erewrite bind_ok; [|apply with_open_ok; intros t; rewrite !bind_emit;
                        rewrite (mapM_emit _ (fun k => EWrite p (k ++ nl))) by reflexivity;
                        rewrite <- !app_assoc; reflexivity].
    unfold emit. rewrite <- app_assoc. cbn [app]. rewrite <- app_assoc. cbn [app map].
    rewrite map_map. reflexivity.
  - simpl. rewrite ?length_map. subst sp. unfold sorted_strings, dkeys.
    now rewrite sort_by_length, ?length_map.
Qed.

Lemma frequency_report_run (files : list manifest) (p : string) (tr : list event) :
  exists chunks msg,
    generate_frequency_report (extract_packages files) files p tr =
      (Ok tt, app tr (EOpenW p :: app (map (EWrite p) chunks) [EClose p; EPrint msg])) /\
    List.length chunks = 5 + List.length (package_counts_of files).
Proof.
  unfold generate_frequency_report.
  set (sf := sort_by_freq (package_counts_of files)).
  destruct (freq_rows_ok (extract_packages files) p sf) as [rows [Hlen Hrows]].
  { intros it Hit. apply package_counts_in_packages.
    apply (in_map fst). eapply Permutation_in; [apply sort_by_perm|exact Hit]. }
  eexists (_ :: _ :: _ :: _ :: _ :: rows), _. split.
  - erewrite bind_ok; [|apply with_open_ok; intros t; rewrite !bind_emit, Hrows;
                        rewrite <- !app_assoc; reflexivity].
    unfold emit. rewrite <- app_assoc. cbn [app]. rewrite <- app_assoc. cbn [app map].
    reflexivity.
  - simpl. rewrite Hlen. subst sf. unfold sort_by_freq. now rewrite sort_by_length.
Qed.

Lemma unique_versions_report_run (package_versions : list (string * nat)) (p : string)
  (tr : list event) :
  exists chunks msg,
    generate_unique_packages_with_versions_report package_versions p tr =
      (Ok tt, app tr (EOpenW p :: app (map (EWrite p) chunks) [EClose p; EPrint msg])) /\
    List.length chunks = 2 + List.length package_versions.
Proof.
  unfold generate_unique_packages_with_versions_report.
  set (sp := sorted_strings (dkeys package_versions)).
  eexists (_ :: _ :: map (fun k => k ++ nl) sp), _. split.
  - erewrite bind_ok; [|apply with_open_ok; intros t; rewrite !bind_emit;
                        rewrite (mapM_emit _ (fun k => EWrite p (k ++ nl))) by reflexivity;
                        rewrite <- !app_assoc; reflexivity].
    unfold emit. rewrite <- app_assoc. cbn [app]. rewrite <- app_assoc. cbn [app map].
    rewrite map_map. reflexivity.
  - simpl. rewrite ?length_map. subst sp. unfold sorted_strings, dkeys.
    now rewrite sort_by_length, ?length_map.
Qed.

Lemma frequency_versions_report_run (package_versions : list (string * nat))
  (files : list manifest) (p : string) (tr : list event) :
  exists chunks msg,
    generate_frequency_with_versions_report package_versions files p tr =
      (Ok tt, app tr (EOpenW p :: app (map (EWrite p) chunks) [EClose p; EPrint msg])) /\
    List.length chunks = 5 + List.length package_versions.
Proof.
  unfold generate_frequency_with_versions_report.
  set (sf := sort_by_freq package_versions).
  eexists (_ :: _ :: _ :: _ :: _ :: map (fun it : string * nat =>
             pad 60 (fst it) ++ " " ++ pad 10 (str_of_nat (snd it)) ++ nl) sf), _. split.
  - erewrite bind_ok; [|apply with_open_ok; intros t; rewrite !bind_emit;
                        rewrite (mapM_emit _ (fun it : string * nat =>
                          EWrite p (pad 60 (fst it) ++ " " ++ pad 10 (str_of_nat (snd it)) ++ nl)))
                          by (intros [a b]; reflexivity);
                        rewrite <- !app_assoc; reflexivity].
    unfold emit. rewrite <- app_assoc. cbn [app]. rewrite <- app_assoc. cbn [app map].
    rewrite map_map. reflexivity.
  - simpl. rewrite ?length_map. subst sf. unfold sort_by_freq. now rewrite sort_by_length.
Qed.

(** C7 (counterexample): the unique-names report for [flask] and
    [requests], written over an older [out], is one open, four separate
    writes and a close; right after the open the file on disk is empty,
    and a run exists where it is still empty after the four writes and
    holds the report only after the close. *)
Lemma report_empty_until_close :
  let tr := snd (generate_unique_packages_report [("flask", []); ("requests", [])] "out" []) in
  let report := ("# Unique Packages (Alphabetically Sorted)" ++ nl
                 ++ "# Total unique packages: 2" ++ nl ++ nl ++ "flask" ++ nl ++ "requests" ++ nl) in
  List.length (filter (touches "out") tr) = 5 /\
  (forall st, disk_run "out" ("old", "") (firstn 1 tr) st -> st = ("", "")) /\
  disk_run "out" ("old", "") (firstn 5 tr) ("", report) /\
  disk_run "out" ("old", "") tr (report, "") /\
  report <> "".
Proof.
  intros tr report.
  set (chunks := ["# Unique Packages (Alphabetically Sorted)" ++ nl;
                  "# Total unique packages: 2" ++ nl ++ nl; "flask" ++ nl; "requests" ++ nl]).
  assert (Etr : tr = app (EOpenW "out" :: map (EWrite "out") chunks)
                        [EClose "out"; EPrint "Unique packages report saved to: out"])
    by (vm_compute; reflexivity).
  assert (Er : report = String.concat "" chunks) by (vm_compute; reflexivity).
  assert (Hw : disk_run "out" ("old", "") (EOpenW "out" :: map (EWrite "out") chunks)
                 ("", report))
    by (econstructor; [apply DOpen|]; rewrite Er; apply (disk_writes_buffered "out" chunks "" "")).
  rewrite Etr. split; [vm_compute; reflexivity|]. split; [|split; [|split]].
  - intros st H. inversion H as [|? st1 ? ? ? Hs Hr]; subst.
    apply disk_open_inv in Hs. subst st1. now inversion Hr.
  - exact Hw.
  - eapply disk_run_app_intro; [exact Hw|].
    econstructor; [apply DClose|]. econstructor; [apply DOther; [reflexivity|discriminate]|].
    constructor.
  - subst report. discriminate.
Qed.

(** C7 (amended): each report is written by opening its file, which
    truncates it, then a series of separate writes (at least two header
    writes, then one per entry) through Python's buffered file object, then
    closing it.  Between the open and the close the file on disk holds a
    prefix of what was written so far, empty right after the open and
    possibly empty until the close; after the close it holds the whole
    report. *)
Theorem reports_buffered_until_close (files : list manifest) (p1 p2 p3 p4 : string)
  (tr : list event) :
  (exists chunks msg,
     generate_unique_packages_report (extract_packages files) p1 tr =
       (Ok tt, app tr (EOpenW p1 :: app (map (EWrite p1) chunks) [EClose p1; EPrint msg])) /\
     List.length chunks = 2 + List.length (extract_packages files) /\
     report_disk_states p1 chunks) /\
  (exists chunks msg,
     generate_frequency_report (extract_packages files) files p2 tr =
       (Ok tt, app tr (EOpenW p2 :: app (map (EWrite p2) chunks) [EClose p2; EPrint msg])) /\
     List.length chunks = 5 + List.length (package_counts_of files) /\
     report_disk_states p2 chunks) /\
  (exists chunks msg,
     generate_unique_packages_with_versions_report (extract_packages_with_versions files) p3 tr =
       (Ok tt, app tr (EOpenW p3 :: app (map (EWrite p3) chunks) [EClose p3; EPrint msg])) /\
     List.length chunks = 2 + List.length (extract_packages_with_versions files) /\
     report_disk_states p3 chunks) /\
  (exists chunks msg,
     generate_frequency_with_versions_report (extract_packages_with_versions files) files p4 tr =
       (Ok tt, app tr (EOpenW p4 :: app (map (EWrite p4) chunks) [EClose p4; EPrint msg])) /\
     List.length chunks = 5 + List.length (extract_packages_with_versions files) /\
     report_disk_states p4 chunks).
Proof.
  split; [|split; [|split]].
  - destruct (unique_report_run (extract_packages files) p1 tr) as (c & m & H1 & H2).
    exists c, m. split; [exact H1|]. split; [exact H2|apply report_disk_states_all].
  - destruct (frequency_report_run files p2 tr) as (c & m & H1 & H2).
    exists c, m. split; [exact H1|]. split; [exact H2|apply report_disk_states_all].
  - destruct (unique_versions_report_run (extract_packages_with_versions files) p3 tr)
      as (c & m & H1 & H2).
    exists c, m. split; [exact H1|]. split; [exact H2|apply report_disk_states_all].
  - destruct (frequency_versions_report_run (extract_packages_with_versions files) files p4 tr)
      as (c & m & H1 & H2).
    exists c, m. split; [exact H1|]. split; [exact H2|apply report_disk_states_all].
Qed.

(** ** Claim C1 *)




(** ** Which files the steps after the reports touch *)

Section WritesOnly.
Variable q : string.

Lemma wo_ret {A} (a : A) : writes_only q (ret a).
Proof. intros t. exists []. split; [now rewrite app_nil_r|reflexivity]. Qed.

Lemma wo_raise {A} (ex : exn) : writes_only q (raise (A := A) ex).
Proof. intros t. exists []. split; [now rewrite app_nil_r|reflexivity]. Qed.

Lemma wo_get_trace : writes_only q get_trace.
Proof. intros t. exists []. split; [now rewrite app_nil_r|reflexivity]. Qed.

Lemma wo_emit (ev : event) :
  (forall p, p <> q -> touches p ev = false) -> writes_only q (emit ev).
Proof.
  intros H t. exists [ev]. split; [reflexivity|]. intros p Hp. simpl. now rewrite H.
Qed.

Lemma wo_bind {A B} (m : M A) (k : A -> M B) :
  writes_only q m -> (forall a, writes_only q (k a)) -> writes_only q (bind m k).
Proof.
  intros Hm Hk t. unfold bind. destruct (Hm t) as [x1 [E1 F1]].
  destruct (m t) as [[a|ex] t1]; simpl in E1; subst t1.
  - destruct (Hk a (app t x1)) as [x2 [E2 F2]]. exists (app x1 x2). split.
    + now rewrite E2, app_assoc.
    + intros p Hp. rewrite forallb_app, F1, F2 by exact Hp. reflexivity.
  - exists x1. split; [reflexivity|exact F1].
Qed.

Lemma wo_try_catch {A} (m : M A) (h : exn -> M A) :
  writes_only q m -> (forall ex, writes_only q (h ex)) -> writes_only q (try_catch m h).
Proof.
  intros Hm Hh t. unfold try_catch. destruct (Hm t) as [x1 [E1 F1]].
  destruct (m t) as [[a|ex] t1]; simpl in E1; subst t1.
  - exists x1. split; [reflexivity|exact F1].
  - destruct (Hh ex (app t x1)) as [x2 [E2 F2]]. exists (app x1 x2). split.
    + now rewrite E2, app_assoc.
    + intros p Hp. rewrite forallb_app, F1, F2 by exact Hp. reflexivity.
Qed.

Lemma wo_with_open (body : M unit) : writes_only q body -> writes_only q (with_open q body).
Proof.
  intros Hb. unfold with_open.
  assert (Hq : forall ev, (ev = EOpenW q \/ ev = EClose q) ->
                 forall p, p <> q -> touches p ev = false).
  { intros ev [->| ->] p Hp; simpl; [now apply String.eqb_neq|reflexivity]. }
  apply wo_bind; [apply wo_emit, Hq; now left|intros _].
  apply wo_try_catch.
  - apply wo_bind; [exact Hb|intros _]. apply wo_emit, Hq. now right.
  - intros ex. apply wo_bind; [apply wo_emit, Hq; now right|intros _]. apply wo_raise.
Qed.

Lemma wo_write (s : string) : writes_only q (emit (EWrite q s)).
Proof. apply wo_emit. intros p Hp. simpl. now apply String.eqb_neq. Qed.

End WritesOnly.

Ltac wo_step :=
  match goal with
  | |- writes_only _ (bind _ _) => apply wo_bind; [|intros ?]
  | |- writes_only _ (ret _) => apply wo_ret
  | |- writes_only _ (raise _) => apply wo_raise
  | |- writes_only _ get_trace => apply wo_get_trace
  | |- writes_only _ (try_catch _ _) => apply wo_try_catch; [|intros ?]
  | |- writes_only ?q (with_open ?q _) => apply wo_with_open
  | |- writes_only ?q (emit (EWrite ?q _)) => apply wo_write
  | |- writes_only _ (emit _) => apply wo_emit; intros ? ?; reflexivity
  | |- writes_only _ (if ?c then _ else _) => destruct c
  | |- writes_only _ (match ?x with _ => _ end) => destruct x
  | |- writes_only _ (let _ := _ in _) => cbv zeta
  end.

Lemma ai_step_writes_only (e : env) :
  writes_only (join_path (output_dir e) "ai_recommendations.txt") (ai_step e).
Proof. unfold ai_step, analyze. cbv zeta. repeat wo_step. Qed.

Lemma after_reports_writes_only (e : env) :
  writes_only (join_path (output_dir e) "ai_recommendations.txt")
    (summary_prints e ;;; ai_phase e).
Proof.
  apply wo_bind; [unfold summary_prints; repeat wo_step|intros _].
  unfold ai_phase. apply wo_bind; [unfold decide_ai; cbv zeta; repeat wo_step|intros b].
  apply wo_bind; [|intros _; apply wo_ret].
  destruct b; [|apply wo_ret].
  apply wo_try_catch; [apply ai_step_writes_only|].
  intros ex. unfold ai_handler. destruct ex; repeat wo_step.
Qed.

Lemma fs_apply_no_touch (fs : list (string * string)) (p : string) (x : list event) :
  forallb (fun ev => negb (touches p ev)) x = true ->
  dget p (fs_apply fs x) = dget p fs.
Proof.
  revert fs. induction x as [|ev x IH]; intros fs H; [reflexivity|].
  simpl in H. apply andb_true_iff in H as [H1 H2].
  destruct ev as [s|s|q|q s|q]; simpl; rewrite IH by exact H2; try reflexivity;
    simpl in H1; apply negb_true_iff, String.eqb_neq in H1; now apply dget_dset_neq.
Qed.

Lemma report_phase_ok (e : env) (files : list manifest) (t : list event) :
  exists t', report_phase e files t = (Ok tt, t').
Proof.
  unfold report_phase. rewrite !bind_emit. cbv zeta.
  destruct (unique_report_run (extract_packages files)
              (join_path (output_dir e) (unique_output e))
              (app (app (app (app (app t [EPrint (nl ++ "Extracting packages (normalized)...")])
                 [EPrint ("Extracted " ++ str_of_nat (List.length (extract_packages files))
                          ++ " unique package(s)")])
                 [EPrint (nl ++ "Extracting packages with versions...")])
                 [EPrint ("Extracted " ++ str_of_nat (List.length (extract_packages_with_versions files))
                          ++ " unique package+version combination(s)")])
                 [EPrint (nl ++ "Generating reports...")]))
    as [c1 [m1 [E1 _]]].
  rewrite (bind_ok _ _ _ _ _ E1).
  edestruct frequency_report_run as [c2 [m2 [E2 _]]]. rewrite (bind_ok _ _ _ _ _ E2).
  edestruct unique_versions_report_run as [c3 [m3 [E3 _]]]. rewrite (bind_ok _ _ _ _ _ E3).
  edestruct frequency_versions_report_run as [c4 [m4 [E4 _]]]. rewrite E4.
  eexists. reflexivity.
Qed.

Lemma summary_prints_ok (e : env) (t : list event) :
  exists t', summary_prints e t = (Ok tt, t').
Proof. eexists. reflexivity. Qed.

Lemma decide_ai_ok (e : env) (t : list event) :
  (skip_ai e = true \/ ai_analysis e = true \/ api_key_set e = false \/ user_reply e <> None) ->
  exists b t', decide_ai e t = (Ok b, t').
Proof.
  intros H. unfold decide_ai. cbv zeta.
  destruct (skip_ai e) eqn:Hs; [eexists _, _; reflexivity|].
  destruct (ai_analysis e) eqn:Ha; [eexists _, _; reflexivity|].
  destruct (api_key_set e) eqn:Hk; [|eexists _, _; reflexivity].
  destruct (user_reply e) as [r|] eqn:Hr; [eexists _, _; reflexivity|].
  exfalso. destruct H as [H|[H|[H|H]]]; congruence.
Qed.

Lemma ai_handler_ok (ex : exn) (t : list event) :
  exists w x, ai_handler ex t = (Ok tt, app t (EPrint w :: x)) /\
    (w = nl ++ "AI analysis failed" \/ w = nl ++ "Could not import AI analyzer").
Proof.
  destruct ex; do 2 eexists; unfold ai_handler; rewrite !bind_emit; unfold emit;
    rewrite <- !app_assoc; cbn [app]; split; try reflexivity; auto.
Qed.

(** ** Claim C8 *)

(** C8: once the scan has found manifests (and the prompt, when shown,
    gets an answer), [main] returns 0 whatever the AI step does: the four
    reports are written first, the AI step runs inside the [try], an
    exception it raises ends in a warning printed by the handler, and no
    file but [ai_recommendations.txt] is touched after the reports. *)
Theorem ai_failure_not_fatal (e : env) (rb : string) (children : list entry) :
  repo_base e = Some rb -> rb <> "" -> base e = BDir children ->
  scan_requirements_files rb children <> [] ->
  (skip_ai e = true \/ ai_analysis e = true \/ api_key_set e = false \/ user_reply e <> None) ->
  exists (tr1 t : list event) (run_ai : bool),
    report_phase e (scan_requirements_files rb children)
      [EPrint ("Scanning repository base: " ++ rb);
       EPrint (nl ++ "Searching for requirements.txt files...");
       EPrint ("Found " ++ str_of_nat (List.length (scan_requirements_files rb children))
               ++ " requirements.txt file(s)")] = (Ok tt, tr1) /\
    run_main e = (0, if run_ai then
                       match ai_step e t with
                       | (Ok _, t') => t'
                       | (Raise ex, t') => snd (ai_handler ex t')
                       end
                     else t) /\
    (run_ai = true -> forall ex t', ai_step e t = (Raise ex, t') ->
       exists w, In (EPrint w) (snd (run_main e)) /\
         (w = nl ++ "AI analysis failed" \/ w = nl ++ "Could not import AI analyzer")) /\
    (forall p, p <> join_path (output_dir e) "ai_recommendations.txt" ->
       dget p (fs_apply (output_initial e) (snd (run_main e))) =
       dget p (fs_apply (output_initial e) tr1)).
Proof.
  intros Hrb Hne Hb Hs Hdec.
  destruct (scan_requirements_files rb children) as [|f fs] eqn:Hsc; [congruence|].
  destruct (report_phase_ok e (f :: fs)
              [EPrint ("Scanning repository base: " ++ rb);
               EPrint (nl ++ "Searching for requirements.txt files...");
               EPrint ("Found " ++ str_of_nat (List.length (f :: fs))
                       ++ " requirements.txt file(s)")]) as [tr1 Hrp].
  destruct (summary_prints_ok e tr1) as [t1 Hsp].
  destruct (decide_ai_ok e t1 Hdec) as [b [t2 Hd]].
  assert (Hmain : main e [] = (summary_prints e ;;; ai_phase e) tr1).
  { unfold main. rewrite Hrb. apply String.eqb_neq in Hne. rewrite Hne, Hb. cbv zeta.
    rewrite Hsc. cbn [bind emit app]. now rewrite (bind_ok _ _ _ _ _ Hrp). }
  exists tr1, t2, b.
  split; [exact Hrp|].
  assert (Hrun : run_main e = (0, if b then
                                  match ai_step e t2 with
                                  | (Ok _, t') => t'
                                  | (Raise ex, t') => snd (ai_handler ex t')
                                  end
                                else t2)).
  { unfold run_main. rewrite Hmain, (bind_ok _ _ _ _ _ Hsp). unfold ai_phase.
    rewrite (bind_ok _ _ _ _ _ Hd). destruct b; [|reflexivity].
    unfold bind, try_catch. destruct (ai_step e t2) as [[u|ex] t'] eqn:Ha; [reflexivity|].
    destruct (ai_handler_ok ex t') as [w [x [Eh _]]]. rewrite Eh. reflexivity. }
  split; [exact Hrun|]. split.
  - intros Hb' ex t' Hai. subst b. rewrite Hrun. cbn beta iota. rewrite Hai.
    destruct (ai_handler_ok ex t') as [w [x [Eh Hw]]]. rewrite Eh. exists w.
    split; [|exact Hw]. simpl. apply in_or_app. right. now left.
  - intros p Hp. destruct (after_reports_writes_only e tr1) as [x [Ex Fx]].
    unfold run_main. rewrite Hmain.
    destruct ((summary_prints e ;;; ai_phase e) tr1) as [r tr'] eqn:Er.
    simpl in Ex. subst tr'.
    destruct r; simpl; rewrite fs_apply_app, fs_apply_no_touch by (apply Fx; exact Hp);
      reflexivity.
Qed.

Lemma ai_failure_not_fatal_witness :
  let e := mk_env (Some "repo")
             (BDir [EFile "requirements.txt" (Some ["requests>=2.28" ++ nl])]) "out"
             "unique_packages.txt" "packages_by_frequency.txt" true false "anthropic"
             true None false true None [] in
  fst (run_main e) = 0.
Proof.
  intros e.
  destruct (ai_failure_not_fatal e "repo"
              [EFile "requirements.txt" (Some ["requests>=2.28" ++ nl])])
    as [tr1 [t [b [_ [Hrun _]]]]].
  - reflexivity.
  - discriminate.
  - reflexivity.
  - vm_compute. discriminate.
  - right. left. reflexivity.
  - rewrite Hrun. reflexivity.
Defined.

(** * The rest of the program *)

(** ** Comments, padding and URL lines *)

Lemma space_not_hash (c : ascii) : is_space c = true -> negb (Ascii.eqb c "#") = true.
Proof. destruct c as [[] [] [] [] [] [] [] []]; vm_compute; congruence. Qed.

Lemma before_hash_comment (l c : string) : before_hash (l ++ String "#" c) = before_hash l.
Proof.
  induction l as [|d t IH]; simpl; [reflexivity|].
  destruct (Ascii.eqb d "#"); [reflexivity|now rewrite IH].
Qed.

Lemma parse_requirement_text (a b : string) :
  strip (before_hash a) = strip (before_hash b) -> parse_requirement a = parse_requirement b.
Proof. intros H. unfold parse_requirement. now rewrite H. Qed.

Lemma all_chars_lstrip (p : ascii -> bool) (s : string) :
  all_chars p s = true -> all_chars p (lstrip s) = true.
Proof.
  induction s as [|c t IH]; simpl; [auto|]. intros H.
  apply andb_prop in H as [H1 H2]. destruct (is_space c); auto. simpl. now rewrite H1, H2.
Qed.

Lemma lstrip_spaces_app (w s : string) :
  all_chars is_space w = true -> lstrip (w ++ s) = lstrip s.
Proof.
  induction w as [|c w IH]; simpl; [auto|]. intros H.
  apply andb_prop in H as [H1 H2]. rewrite H1. auto.
Qed.

Lemma rstrip_spaces (w : string) : all_chars is_space w = true -> rstrip w = "".
Proof.
  induction w as [|c w IH]; simpl; [auto|]. intros H.
  apply andb_prop in H as [H1 H2]. rewrite IH, H1 by exact H2. reflexivity.
Qed.

Lemma rstrip_app_spaces (s w : string) :
  all_chars is_space w = true -> rstrip (s ++ w) = rstrip s.
Proof.
  induction s as [|c s IH]; simpl; intros H; [now apply rstrip_spaces|]. now rewrite IH.
Qed.

Lemma lstrip_app_spaces (s w : string) :
  all_chars is_space w = true ->
  exists w', all_chars is_space w' = true /\ lstrip (s ++ w) = lstrip s ++ w'.
Proof.
  induction s as [|c s IH]; simpl; intros H.
  - exists (lstrip w). split; [now apply all_chars_lstrip|reflexivity].
  - destruct (is_space c); [now apply IH|]. exists w. auto.
Qed.

Lemma strip_app_spaces (s w : string) :
  all_chars is_space w = true -> strip (s ++ w) = strip s.
Proof.
  intros H. unfold strip. destruct (lstrip_app_spaces s w H) as [w' [Hw' ->]].
  now apply rstrip_app_spaces.
Qed.

Lemma before_hash_app_spaces (s w : string) :
  all_chars is_space w = true ->
  exists w', all_chars is_space w' = true /\ before_hash (s ++ w) = before_hash s ++ w'.
Proof.
  induction s as [|c s IH]; simpl; intros H.
  - exists w. split; [exact H|]. apply before_hash_id.
    exact (all_chars_impl _ _ w space_not_hash H).
  - destruct (Ascii.eqb c "#"); [now exists ""|].
    destruct (IH H) as [w' [Hw E]]. exists w'. now rewrite E.
Qed.

Lemma rstrip_cons_nonspace (c : ascii) (t : string) :
  is_space c = false -> rstrip (String c t) = String c (rstrip t).
Proof. intros H. simpl. now rewrite H. Qed.

Lemma strip_before_hash_prefix (pre x : string) :
  all_chars (fun c => negb (is_space c) && negb (Ascii.eqb c "#")) pre = true ->
  pre <> "" ->
  strip (before_hash (pre ++ x)) = pre ++ rstrip (before_hash x).
Proof.
  intros H Hne. rewrite before_hash_app
    by (apply (all_chars_impl (fun c => negb (is_space c) && negb (Ascii.eqb c "#")) _ pre);
        [|exact H]; intros c Hc; now apply andb_prop in Hc as [_ Hc]).
  destruct pre as [|c p]; [contradiction|]. simpl in H. apply andb_prop in H as [Hc H].
  apply andb_prop in Hc as [Hc _]. apply negb_true_iff in Hc.
  unfold strip. cbn [append]. rewrite (lstrip_nonspace c _ Hc).
  rewrite (rstrip_cons_nonspace c _ Hc). f_equal.
  clear Hc Hne. induction p as [|d p IH]; [reflexivity|].
  simpl in H. apply andb_prop in H as [Hd H]. apply andb_prop in Hd as [Hd _].
  apply negb_true_iff in Hd. cbn [append]. rewrite (rstrip_cons_nonspace d _ Hd).
  now rewrite IH.
Qed.

Lemma prefix_app (p s : string) : String.prefix p (p ++ s) = true.
Proof.
  induction p as [|c t IH]; simpl; [destruct s; reflexivity|].
  destruct (ascii_dec c c); [exact IH|contradiction].
Qed.

Lemma parse_requirement_prefixed (pre x : string) :
  all_chars (fun c => negb (is_space c) && negb (Ascii.eqb c "#")) pre = true ->
  pre <> "" ->
  (startswith "http://" pre || startswith "https://" pre || startswith "git+" pre = true
   \/ exists t, pre = String "-" t) ->
  parse_requirement (pre ++ x) = None.
Proof.
  intros H Hne Hp. unfold parse_requirement.
  rewrite (strip_before_hash_prefix pre x H Hne).
  set (r := rstrip (before_hash x)).
  assert (E : String.eqb (pre ++ r) "" = false) by (destruct pre; [contradiction|reflexivity]).
  rewrite E. destruct Hp as [Hp|[t ->]].
  - assert (Hq : forall q, startswith q pre = true -> startswith q (pre ++ r) = true).
    { intros q Hq. unfold startswith in *. eapply prefix_trans; [exact Hq|apply prefix_app]. }
    repeat (apply orb_true_iff in Hp as [Hp|Hp]); apply Hq in Hp; rewrite Hp;
      now rewrite ?orb_true_r.
  - destruct (_ || _); reflexivity.
Qed.

(** ** [load_env_file] *)

Lemma lstrip_idem (s : string) : lstrip (lstrip s) = lstrip s.
Proof.
  induction s as [|c t IH]; simpl; [reflexivity|].
  destruct (is_space c) eqn:E; [exact IH|simpl; now rewrite E].
Qed.

Lemma lstrip_app_nonspace (k v : string) (c : ascii) :
  is_space c = false -> lstrip (k ++ String c v) = lstrip k ++ String c v.
Proof.
  intros Hc. induction k as [|d k IH]; simpl; [now rewrite Hc|].
  destruct (is_space d); [exact IH|reflexivity].
Qed.

Lemma rstrip_split (v : string) :
  exists w, all_chars is_space w = true /\ v = rstrip v ++ w.
Proof.
  induction v as [|c t [w [Hw E]]]; [now exists ""|].
  simpl. destruct (is_space c && String.eqb (rstrip t) "") eqn:Ec.
  - apply andb_prop in Ec as [Hc Ht]. apply String.eqb_eq in Ht.
    exists (String c w). simpl. rewrite Hc, Hw. split; [reflexivity|].
    rewrite E at 1. now rewrite Ht.
  - exists w. split; [exact Hw|]. simpl. now rewrite <- E.
Qed.

Lemma strip_rstrip (v : string) : strip (rstrip v) = strip v.
Proof.
  destruct (rstrip_split v) as [w [Hw E]].
  rewrite E at 2. symmetry. now apply strip_app_spaces.
Qed.

Lemma strip_lstrip (k : string) : strip (lstrip k) = strip k.
Proof. unfold strip. now rewrite lstrip_idem. Qed.

Lemma first_char_strip (s : string) : first_char (strip s) = first_char (lstrip s).
Proof.
  unfold strip. induction s as [|c t IH]; simpl; [reflexivity|].
  destruct (is_space c) eqn:E; [exact IH|]. now rewrite (rstrip_cons_nonspace c t E).
Qed.

Lemma startswith_hash (s : string) :
  startswith "#" s = match first_char s with Some c => Ascii.eqb c "#" | None => false end.
Proof.
  destruct s as [|c t]; [reflexivity|]. unfold startswith. cbn [first_char].
  change (String.prefix "#" (String c t))
    with (match ascii_dec "#" c with left _ => String.prefix "" t | right _ => false end).
  destruct (ascii_dec "#" c) as [<-|Hne]; [destruct t; reflexivity|].
  symmetry. apply Ascii.eqb_neq. congruence.
Qed.

Lemma split_once_app (c : ascii) (a b : string) :
  all_chars (fun d => negb (Ascii.eqb d c)) a = true ->
  split_once c (a ++ String c b) = Some (a, b).
Proof.
  induction a as [|d a IH]; simpl; intros H.
  - now rewrite Ascii.eqb_refl.
  - apply andb_prop in H as [H1 H2]. apply negb_true_iff in H1. rewrite H1, IH by exact H2.
    reflexivity.
Qed.

Lemma split_once_none (c : ascii) (s : string) :
  all_chars (fun d => negb (Ascii.eqb d c)) s = true -> split_once c s = None.
Proof.
  induction s as [|d s IH]; simpl; intros H; [reflexivity|].
  apply andb_prop in H as [H1 H2]. apply negb_true_iff in H1. now rewrite H1, IH.
Qed.

Lemma all_chars_rstrip (p : ascii -> bool) (s : string) :
  all_chars p s = true -> all_chars p (rstrip s) = true.
Proof.
  induction s as [|c t IH]; simpl; [auto|]. intros H.
  apply andb_prop in H as [H1 H2].
  destruct (is_space c && String.eqb (rstrip t) ""); [reflexivity|]. simpl. now rewrite H1, IH.
Qed.

Lemma env_line_assign (d : list (string * string)) (k v : string) :
  all_chars (fun c => negb (Ascii.eqb c "=")) k = true ->
  first_char (strip k) <> Some "#"%char ->
  env_line d (k ++ "=" ++ v) = dset (strip k) (strip v) d.
Proof.
  intros Hk Hh. unfold env_line.
  change ("=" ++ v) with (String "=" v).
  assert (Es : strip (k ++ String "=" v) = lstrip k ++ String "=" (rstrip v)).
  { unfold strip. rewrite (lstrip_app_nonspace k v "=") by reflexivity.
    rewrite rstrip_app; [reflexivity|]. simpl. destruct (rstrip v); discriminate. }
  rewrite Es.
  assert (E1 : String.eqb (lstrip k ++ String "=" (rstrip v)) "" = false)
    by (destruct (lstrip k); reflexivity).
  assert (E2 : startswith "#" (lstrip k ++ String "=" (rstrip v)) = false).
  { rewrite startswith_hash. rewrite first_char_strip in Hh.
    destruct (lstrip k) as [|c t]; [reflexivity|]. simpl in Hh |- *.
    apply Ascii.eqb_neq. congruence. }
  rewrite E1, E2. simpl orb. cbv iota.
  rewrite (split_once_app "=" (lstrip k) (rstrip v)) by now apply all_chars_lstrip.
  now rewrite strip_lstrip, strip_rstrip.
Qed.

Lemma env_line_skip (d : list (string * string)) (l : string) :
  all_chars (fun c => negb (Ascii.eqb c "=")) l = true \/ first_char (lstrip l) = Some "#"%char ->
  env_line d l = d.
Proof.
  intros H. unfold env_line. destruct (String.eqb (strip l) "" || startswith "#" (strip l)) eqn:E;
    [reflexivity|].
  destruct H as [H|H].
  - rewrite split_once_none; [reflexivity|].
    unfold strip. now apply all_chars_rstrip, all_chars_lstrip.
  - rewrite startswith_hash, first_char_strip, H in E. now rewrite orb_true_r in E.
Qed.

Lemma env_line_other (d : list (string * string)) (K l : string) :
  startswith "#" (strip l) = true \/
  match split_once "=" (strip l) with Some (key, _) => strip key <> K | None => True end ->
  dget K (env_line d l) = dget K d.
Proof.
  intros H. unfold env_line.
  destruct (String.eqb (strip l) "" || startswith "#" (strip l)) eqn:E; [reflexivity|].
  destruct H as [H|H]; [now rewrite H, orb_true_r in E|].
  destruct (split_once "=" (strip l)) as [[key value]|]; [|reflexivity].
  apply dget_dset_neq. congruence.
Qed.

Lemma env_lines_other (K : string) (post : list string) :
  (forall l, In l post ->
     startswith "#" (strip l) = true \/
     match split_once "=" (strip l) with Some (key, _) => strip key <> K | None => True end) ->
  forall d, dget K (fold_left env_line post d) = dget K d.
Proof.
  induction post as [|l post IH]; intros Hp d; [reflexivity|]. cbn [fold_left].
  rewrite IH by (intros l' Hl'; apply Hp; now right).
  apply env_line_other, Hp. now left.
Qed.

(** [load_env_file]: a line [KEY=VALUE] sets the stripped key to the
    stripped value, over any earlier assignment of that key, and the key
    keeps that value when no later line assigns it again (every later
    line is blank, a comment, holds no [=], or assigns another stripped
    key): the last assignment wins. *)
Theorem load_env_file_assignment (pre post : list string) (k v : string) :
  all_chars (fun c => negb (Ascii.eqb c "=")) k = true ->
  first_char (strip k) <> Some "#"%char ->
  (forall l, In l post ->
     startswith "#" (strip l) = true \/
     match split_once "=" (strip l) with Some (key, _) => strip key <> strip k | None => True end) ->
  dget (strip k) (load_env_file (Some (app pre ((k ++ "=" ++ v) :: post)))) = Some (strip v).
Proof.
  intros Hk Hh Hp. unfold load_env_file. rewrite fold_left_app. cbn [fold_left].
  rewrite env_lines_other by exact Hp.
  rewrite env_line_assign by assumption. apply dget_dset_eq.
Qed.

Lemma load_env_file_assignment_witness :
  all_chars (fun c => negb (Ascii.eqb c "=")) "REPO_BASE " = true /\
  first_char (strip "REPO_BASE ") <> Some "#"%char /\
  dget (strip "REPO_BASE ")
    (load_env_file (Some (app ["REPO_BASE=~/old" ++ nl; "# REPO_BASE=~/x" ++ nl]
                              (("REPO_BASE " ++ "=" ++ " ~/repos" ++ nl)
                               :: ["# REPO_BASE=~/y" ++ nl; "ANTHROPIC_API_KEY=k" ++ nl;
                                   nl; "REPO_BASE_DIR=z" ++ nl]))))
  = Some (strip (" ~/repos" ++ nl)).
Proof.
  split; [reflexivity|]. split; [vm_compute; discriminate|].
  apply load_env_file_assignment; [reflexivity|vm_compute; discriminate|].
  intros l Hl. simpl in Hl.
  repeat (destruct Hl as [<-|Hl]; [first [left; reflexivity | right; vm_compute; discriminate
                                        | right; exact I]|]).
  contradiction.
Defined.

(** [load_env_file]: a line without [=] or whose first non-blank
    character is [#] changes nothing. *)
Theorem load_env_file_ignored_lines (pre post : list string) (l : string) :
  all_chars (fun c => negb (Ascii.eqb c "=")) l = true \/ first_char (lstrip l) = Some "#"%char ->
  load_env_file (Some (app pre (l :: post))) = load_env_file (Some (app pre post)).
Proof.
  intros H. unfold load_env_file. rewrite !fold_left_app. cbn [fold_left].
  now rewrite env_line_skip.
Qed.

Lemma load_env_file_ignored_lines_witness :
  (all_chars (fun c => negb (Ascii.eqb c "=")) ("  # REPO_BASE=~/x" ++ nl) = true \/
   first_char (lstrip ("  # REPO_BASE=~/x" ++ nl)) = Some "#"%char) /\
  load_env_file (Some (app ["A=1" ++ nl] (("  # REPO_BASE=~/x" ++ nl) :: ["B=2" ++ nl]))) =
  load_env_file (Some (app ["A=1" ++ nl] ["B=2" ++ nl])).
Proof.
  split; [right; reflexivity|].
  apply load_env_file_ignored_lines. right. reflexivity.
Defined.

(** ** The walk *)


Lemma walk_dir (root n : string) (l : list entry) :
  walk root (EDir n l) = app (files_here root l) (flat_map (walk_child root) l).
Proof.
  cbn [walk]. f_equal. induction l as [|[n' c|n' c] t IH]; [reflexivity| |]; cbn [flat_map].
  - exact IH.
  - rewrite <- IH. reflexivity.
Qed.


Lemma prune_dir (n : string) (l : list entry) :
  prune (EDir n l) = EDir n (flat_map prune_child l).
Proof.
  cbn [prune]. f_equal. induction l as [|[n' c|n' c] t IH]; [reflexivity| |]; cbn [flat_map].
  - now rewrite IH.
  - rewrite <- IH. cbn [prune_child]. destruct (existsb (String.eqb n') skip_dirs); reflexivity.
Qed.

Lemma files_here_prune (root : string) (l : list entry) :
  files_here root (flat_map prune_child l) = files_here root l.
Proof.
  unfold files_here. induction l as [|[n c|n c] t IH]; [reflexivity| |]; cbn [flat_map prune_child].
  - cbn [app]. rewrite <- IH. reflexivity.
  - destruct (existsb (String.eqb n) skip_dirs); [exact IH|].
    rewrite prune_dir. exact IH.
Qed.

Lemma os_walk_dir (root n : string) (l : list entry) :
  os_walk root (EDir n l) = app (files_here root l) (flat_map (os_walk_child root) l).
Proof.
  cbn [os_walk]. f_equal. induction l as [|[n' c|n' c] t IH]; [reflexivity| |]; cbn [flat_map].
  - exact IH.
  - rewrite <- IH. reflexivity.
Qed.

(** [scan_requirements_files]: the walk that prunes [dirs] in place
    finds exactly the files, in the same order, that a plain [os.walk]
    finds in the tree with the skipped directories (named [.git],
    [__pycache__], [node_modules], [.venv], [venv] or [env]) removed at
    every depth. *)
Theorem walk_prune (root : string) (e : entry) : walk root e = os_walk root (prune e).
Proof.
  revert root. induction e as [n c|n l IH] using entry_ind'; intros root; [reflexivity|].
  rewrite prune_dir, walk_dir, os_walk_dir, files_here_prune. f_equal.
  induction l as [|d t IHt]; [reflexivity|].
  inversion_clear IH as [|? ? Hd Ht]. specialize (IHt Ht).
  cbn [flat_map]. rewrite flat_map_app, IHt. f_equal.
  destruct d as [n' c|n' c]; cbn [prune_child]; [reflexivity|].
  cbn [walk_child]. destruct (existsb (String.eqb n') skip_dirs) eqn:Es; [reflexivity|].
  cbn [flat_map]. rewrite app_nil_r, Hd, prune_dir. reflexivity.
Qed.

(** ** Events a computation may emit *)



Section OnlyEvents.
Variable ok : event -> bool.

Lemma oe_ret {A} (a : A) : only_events ok (ret a).
Proof. intros t. exists []. split; [now rewrite app_nil_r|reflexivity]. Qed.

Lemma oe_raise {A} (ex : exn) : only_events ok (raise (A := A) ex).
Proof. intros t. exists []. split; [now rewrite app_nil_r|reflexivity]. Qed.

Lemma oe_get_trace : only_events ok get_trace.
Proof. intros t. exists []. split; [now rewrite app_nil_r|reflexivity]. Qed.

Lemma oe_emit (ev : event) : ok ev = true -> only_events ok (emit ev).
Proof. intros H t. exists [ev]. split; [reflexivity|]. simpl. now rewrite H. Qed.

Lemma oe_bind {A B} (m : M A) (k : A -> M B) :
  only_events ok m -> (forall a, only_events ok (k a)) -> only_events ok (bind m k).
Proof.
  intros Hm Hk t. unfold bind. destruct (Hm t) as [x1 [E1 F1]].
  destruct (m t) as [[a|ex] t1]; simpl in E1; subst t1.
  - destruct (Hk a (app t x1)) as [x2 [E2 F2]]. exists (app x1 x2). split.
    + now rewrite E2, app_assoc.
    + now rewrite forallb_app, F1, F2.
  - exists x1. split; [reflexivity|exact F1].
Qed.

Lemma oe_try_catch {A} (m : M A) (h : exn -> M A) :
  only_events ok m -> (forall ex, only_events ok (h ex)) -> only_events ok (try_catch m h).
Proof.
  intros Hm Hh t. unfold try_catch. destruct (Hm t) as [x1 [E1 F1]].
  destruct (m t) as [[a|ex] t1]; simpl in E1; subst t1.
  - exists x1. split; [reflexivity|exact F1].
  - destruct (Hh ex (app t x1)) as [x2 [E2 F2]]. exists (app x1 x2). split.
    + now rewrite E2, app_assoc.
    + now rewrite forallb_app, F1, F2.
Qed.

Lemma oe_with_open (p : string) (body : M unit) :
  ok (EOpenW p) = true -> ok (EClose p) = true -> only_events ok body ->
  only_events ok (with_open p body).
Proof.
  intros Ho Hc Hb. unfold with_open.
  apply oe_bind; [now apply oe_emit|intros _].
  apply oe_try_catch.
  - apply oe_bind; [exact Hb|intros _]. now apply oe_emit.
  - intros ex. apply oe_bind; [now apply oe_emit|intros _]. apply oe_raise.
Qed.

Lemma oe_mapM_ {A} (f : A -> M unit) (l : list A) :
  (forall x, only_events ok (f x)) -> only_events ok (mapM_ f l).
Proof.
  intros Hf. induction l as [|x l IH]; [apply oe_ret|]. cbn [mapM_].
  apply oe_bind; [apply Hf|intros _; exact IH].
Qed.

End OnlyEvents.

Ltac oe_step :=
  match goal with
  | |- only_events _ (bind _ _) => apply oe_bind; [|intros ?]
  | |- only_events _ (ret _) => apply oe_ret
  | |- only_events _ (raise _) => apply oe_raise
  | |- only_events _ get_trace => apply oe_get_trace
  | |- only_events _ (try_catch _ _) => apply oe_try_catch; [|intros ?]
  | |- only_events _ (with_open _ _) => apply oe_with_open
  | |- only_events _ (mapM_ _ _) => apply oe_mapM_; intros ?
  | |- only_events _ (emit _) => apply oe_emit
  | |- only_events _ (if ?c then _ else _) => destruct c
  | |- only_events _ (match ?x with _ => _ end) => destruct x
  | |- only_events _ (let _ := _ in _) => cbv zeta
  end.

Lemma report_phase_events (ok : event -> bool) (e : env) (files : list manifest) :
  (forall s, ok (EPrint s) = true) ->
  (forall p s, In p [join_path (output_dir e) (unique_output e);
                     join_path (output_dir e) (frequency_output e);
                     join_path (output_dir e) "unique_packages_with_versions.txt";
                     join_path (output_dir e) "packages_by_frequency_with_versions.txt"] ->
     ok (EOpenW p) = true /\ ok (EWrite p s) = true /\ ok (EClose p) = true) ->
  only_events ok (report_phase e files).
Proof.
  intros Hp Hf.
  unfold report_phase, generate_unique_packages_report, generate_frequency_report,
    generate_unique_packages_with_versions_report, generate_frequency_with_versions_report,
    freq_row.
  cbv zeta. repeat oe_step; try apply Hp;
    match goal with
    | |- ok (_ ?p) = true => edestruct (Hf p "") as (? & ? & ?); [simpl; tauto|assumption]
    | |- ok (EWrite ?p ?s) = true => edestruct (Hf p s) as (? & ? & ?); [simpl; tauto|assumption]
    end.
Qed.

Lemma ai_phase_events (ok : event -> bool) (e : env) :
  (forall s, ok (EPrint s) = true) ->
  (forall s, ok (EOpenW (join_path (output_dir e) "ai_recommendations.txt")) = true /\
             ok (EWrite (join_path (output_dir e) "ai_recommendations.txt") s) = true /\
             ok (EClose (join_path (output_dir e) "ai_recommendations.txt")) = true) ->
  only_events ok (decide_ai e) -> only_events ok (ai_phase e).
Proof.
  intros Hp Ha Hd. unfold ai_phase. apply oe_bind; [exact Hd|intros b].
  apply oe_bind; [|intros _; apply oe_ret]. destruct b; [|apply oe_ret].
  apply oe_try_catch.
  - unfold ai_step, analyze. cbv zeta. repeat oe_step; try apply Hp;
      first [exact (proj1 (Ha "")) | exact (proj2 (proj2 (Ha ""))) |
             exact (proj1 (proj2 (Ha _)))].
  - intros ex. unfold ai_handler. destruct ex; repeat oe_step; apply Hp.
Qed.

Lemma main_events (ok : event -> bool) (e : env) :
  (forall s, ok (EPrint s) = true) ->
  (forall p s, In p [join_path (output_dir e) (unique_output e);
                     join_path (output_dir e) (frequency_output e);
                     join_path (output_dir e) "unique_packages_with_versions.txt";
                     join_path (output_dir e) "packages_by_frequency_with_versions.txt";
                     join_path (output_dir e) "ai_recommendations.txt"] ->
     ok (EOpenW p) = true /\ ok (EWrite p s) = true /\ ok (EClose p) = true) ->
  only_events ok (decide_ai e) -> only_events ok (main e).
Proof.
  intros Hp Hf Hd. unfold main. cbv zeta.
  repeat (oe_step || apply Hp).
  - apply report_phase_events; [exact Hp|]. intros p0 s0 Hin. apply Hf. simpl in *. tauto.
  - unfold summary_prints. repeat (oe_step || apply Hp).
  - apply ai_phase_events; [exact Hp| |exact Hd]. intros s0. apply Hf. simpl. tauto.
Qed.

Lemma run_main_trace (e : env) : snd (run_main e) = snd (main e []).
Proof. unfold run_main. destruct (main e []) as [[n|ex] t]; reflexivity. Qed.

Lemma ai_phase_ok (e : env) (t : list event) :
  (skip_ai e = true \/ ai_analysis e = true \/ api_key_set e = false \/ user_reply e <> None) ->
  exists t', ai_phase e t = (Ok 0, t').
Proof.
  intros H. destruct (decide_ai_ok e t H) as [b [t1 Hd]].
  unfold ai_phase. rewrite (bind_ok _ _ _ _ _ Hd). destruct b; [|eexists; reflexivity].
  unfold bind at 1, try_catch. destruct (ai_step e t1) as [[u|ex] t2]; [eexists; reflexivity|].
  destruct (ai_handler_ok ex t2) as [w [x [Eh _]]]. rewrite Eh. eexists. reflexivity.
Qed.

Lemma main_ok (e : env) (rb : string) (children : list entry) :
  repo_base e = Some rb -> rb <> "" -> base e = BDir children ->
  (skip_ai e = true \/ ai_analysis e = true \/ api_key_set e = false \/ user_reply e <> None) ->
  exists t, main e [] = (Ok 0, t).
Proof.
  intros Hrb Hne Hb Hdec. unfold main. rewrite Hrb.
  apply String.eqb_neq in Hne. rewrite Hne, Hb. cbv zeta.
  destruct (scan_requirements_files rb children) as [|f fs]; [eexists; reflexivity|].
  rewrite !bind_emit.
  destruct (report_phase_ok e (f :: fs)
    (app (app (app [] [EPrint ("Scanning repository base: " ++ rb)])
      [EPrint (nl ++ "Searching for requirements.txt files...")])
      [EPrint ("Found " ++ str_of_nat (List.length (f :: fs)) ++ " requirements.txt file(s)")]))
    as [t1 Hrp].
  rewrite (bind_ok _ _ _ _ _ Hrp).
  destruct (summary_prints_ok e t1) as [t2 Hsp]. rewrite (bind_ok _ _ _ _ _ Hsp).
  exact (ai_phase_ok e t2 Hdec).
Qed.

(** [main]: without a base path, or with one that does not exist or is
    not a directory, the exit code is 1 and the run only prints. *)
Theorem main_rejects_bad_base (e : env) :
  repo_base e = None \/ repo_base e = Some "" \/ base e = BMissing \/ base e = BNotDir ->
  fst (run_main e) = 1 /\ forall ev, In ev (snd (run_main e)) -> exists s, ev = EPrint s.
Proof.
  intros H. unfold run_main, main. cbv zeta.
  destruct (repo_base e) as [rb|] eqn:Er;
    [destruct (String.eqb rb "") eqn:Ee; [|destruct (base e) eqn:Eb]|];
    try (destruct H as [H|[H|[H|H]]]; try congruence;
         injection H as ->; simpl in Ee; discriminate);
    cbn; (split; [reflexivity|]); intros ev Hev;
    repeat (destruct Hev as [<-|Hev]; [eexists; reflexivity|]); destruct Hev.
Qed.

Lemma main_rejects_bad_base_witness :
  let e := mk_env (Some "/no/such/dir") BMissing "out" "unique_packages.txt"
             "packages_by_frequency.txt" false false "anthropic" false None false false None [] in
  (repo_base e = None \/ repo_base e = Some "" \/ base e = BMissing \/ base e = BNotDir) /\
  fst (run_main e) = 1 /\ forall ev, In ev (snd (run_main e)) -> exists s, ev = EPrint s.
Proof.
  intros e. split; [right; right; left; reflexivity|].
  apply main_rejects_bad_base. right; right; left; reflexivity.
Defined.


Lemma in_close (x : list event) (p : string) (chunks : list string) (msg : string) :
  In (EClose p) (app x (EOpenW p :: app (map (EWrite p) chunks) [EClose p; EPrint msg])).
Proof. apply in_or_app; right; right; apply in_or_app; right; now left. Qed.

Lemma report_phase_closes (e : env) (files : list manifest) (t : list event) :
  exists t', report_phase e files t = (Ok tt, t') /\
    forall p, In p [join_path (output_dir e) (unique_output e);
                    join_path (output_dir e) (frequency_output e);
                    join_path (output_dir e) "unique_packages_with_versions.txt";
                    join_path (output_dir e) "packages_by_frequency_with_versions.txt"] ->
      In (EClose p) t'.
Proof.
  unfold report_phase. rewrite !bind_emit. cbv zeta.
  destruct (unique_report_run (extract_packages files)
              (join_path (output_dir e) (unique_output e))
              (app (app (app (app (app t [EPrint (nl ++ "Extracting packages (normalized)...")])
                 [EPrint ("Extracted " ++ str_of_nat (List.length (extract_packages files))
                          ++ " unique package(s)")])
                 [EPrint (nl ++ "Extracting packages with versions...")])
                 [EPrint ("Extracted " ++ str_of_nat (List.length (extract_packages_with_versions files))
                          ++ " unique package+version combination(s)")])
                 [EPrint (nl ++ "Generating reports...")]))
    as [c1 [m1 [E1 _]]].
  rewrite (bind_ok _ _ _ _ _ E1).
  edestruct frequency_report_run as [c2 [m2 [E2 _]]]. rewrite (bind_ok _ _ _ _ _ E2).
  edestruct unique_versions_report_run as [c3 [m3 [E3 _]]]. rewrite (bind_ok _ _ _ _ _ E3).
  edestruct frequency_versions_report_run as [c4 [m4 [E4 _]]]. rewrite E4.
  eexists. split; [reflexivity|].
  intros p Hp. simpl in Hp. destruct Hp as [<-|[<-|[<-|[<-|[]]]]];
    repeat (first [apply in_close | apply in_or_app; left]).
Qed.

(** [main]: when the AI prompt reads end of input, the four reports have
    been written and closed, the prompt is the last event and the exit code
    is 1. *)
Theorem main_eof_at_prompt (e : env) (rb : string) (children : list entry) :
  repo_base e = Some rb -> rb <> "" -> base e = BDir children ->
  scan_requirements_files rb children <> [] ->
  skip_ai e = false -> ai_analysis e = false -> api_key_set e = true -> user_reply e = None ->
  fst (run_main e) = 1 /\
  last (snd (run_main e)) (EPrint "") = EInput (nl ++ "Run AI analysis? [Y/n]: ") /\
  forall p, In p [join_path (output_dir e) (unique_output e);
                  join_path (output_dir e) (frequency_output e);
                  join_path (output_dir e) "unique_packages_with_versions.txt";
                  join_path (output_dir e) "packages_by_frequency_with_versions.txt"] ->
    In (EClose p) (snd (run_main e)).
Proof.
  intros Hrb Hne Hb Hs Hsk Hai Hk Hr.
  destruct (scan_requirements_files rb children) as [|f fs] eqn:Hsc; [congruence|].
  destruct (report_phase_closes e (f :: fs)
              [EPrint ("Scanning repository base: " ++ rb);
               EPrint (nl ++ "Searching for requirements.txt files...");
               EPrint ("Found " ++ str_of_nat (List.length (f :: fs))
                       ++ " requirements.txt file(s)")]) as [tr1 [Hrp Hcl]].
  assert (Hmain : main e [] = (summary_prints e ;;; ai_phase e) tr1).
  { unfold main. rewrite Hrb. apply String.eqb_neq in Hne. rewrite Hne, Hb. cbv zeta.
    rewrite Hsc. cbn [bind emit app]. now rewrite (bind_ok _ _ _ _ _ Hrp). }
  destruct (summary_prints_ok e tr1) as [t1 Hsp].
  assert (Ht1 : exists x, t1 = app tr1 x).
  { unfold summary_prints in Hsp. rewrite !bind_emit in Hsp. unfold emit in Hsp.
    injection Hsp as <-. rewrite <- !app_assoc. eexists. reflexivity. }
  destruct Ht1 as [x1 ->].
  unfold run_main. rewrite Hmain, (bind_ok _ _ _ _ _ Hsp).
  unfold ai_phase, decide_ai. rewrite Hsk, Hai, Hk, Hr. cbv zeta.
  unfold bind, emit, raise. cbn beta iota. split; [reflexivity|]. split.
  - cbn [snd]. rewrite last_last. reflexivity.
  - intros p Hp. cbn [snd]. repeat (apply in_or_app; left). now apply Hcl.
Qed.

Lemma analyze_empty_report (e : env) (provider dir out : string) (t : list event) :
  (dget (join_path dir "packages_by_frequency.txt") (fs_apply (output_initial e) t) = None \/
   dget (join_path dir "packages_by_frequency.txt") (fs_apply (output_initial e) t) = Some "") ->
  analyze e provider dir out t =
    (Raise ValueError,
     app t [EPrint (nl ++ "Analyzing package usage with " ++ upper provider ++ " AI...")]).
Proof.
  intros H. unfold analyze. rewrite bind_emit. unfold bind at 1. cbn [get_trace].
  rewrite fs_apply_app. cbn [fs_apply].
  destruct H as [H|H]; rewrite H; reflexivity.
Qed.

Lemma analyze_run (e : env) (provider dir out : string) (t : list event) (c r : string) :
  dget (join_path dir "packages_by_frequency.txt") (fs_apply (output_initial e) t) = Some c ->
  c <> "" -> provider_lib_importable e = true -> api_reply e = Some r ->
  analyze e provider dir out t =
    (Ok r, app t (EPrint (nl ++ "Analyzing package usage with " ++ upper provider ++ " AI...")
                  :: EOpenW out
                  :: app (map (EWrite out)
                            ["# AI-Generated Environment Recommendations" ++ nl ++ nl;
                             "Generated using: " ++ upper provider ++ nl ++ nl;
                             repeat_char "=" 80 ++ nl ++ nl; r])
                         [EClose out; EPrint (nl ++ "AI recommendations saved to: " ++ out)])).
Proof.
  intros Hc Hne Hl Hr. unfold analyze. rewrite bind_emit. unfold bind at 1. cbn [get_trace].
  rewrite fs_apply_app. cbn [fs_apply]. rewrite Hc.
  apply String.eqb_neq in Hne. rewrite Hne, Hl, Hr.
  cbv [bind ret emit with_open try_catch]. rewrite <- !app_assoc. reflexivity.
Qed.

Lemma recommendations_written (fs : list (string * string)) (t : list event)
  (provider out r b m : string) :
  dget out (fs_apply fs
    (app t (EPrint b :: EOpenW out
            :: app (map (EWrite out)
                      ["# AI-Generated Environment Recommendations" ++ nl ++ nl;
                       "Generated using: " ++ upper provider ++ nl ++ nl;
                       repeat_char "=" 80 ++ nl ++ nl; r])
                   [EClose out; EPrint m]))) =
  Some (recommendations_text provider r).
Proof.
  rewrite fs_apply_app. cbn [fs_apply]. rewrite fs_apply_app. cbn [fs_apply].
  rewrite (fs_apply_writes _ out "") by apply dget_dset_eq.
  unfold recommendations_text. cbn [String.concat]. rewrite !str_append_assoc. reflexivity.
Qed.

Lemma fs_apply_print (fs : list (string * string)) (l : list event) (s : string) :
  fs_apply fs (app l [EPrint s]) = fs_apply fs l.
Proof. rewrite fs_apply_app. reflexivity. Qed.





Lemma namechar_normc (c : ascii) : is_namechar c = true ->
  is_namechar (if Ascii.eqb (lower_char c) "_" then "-"%char else lower_char c) = true.
Proof. destruct c as [[] [] [] [] [] [] [] []]; vm_compute; congruence. Qed.

Lemma namechar_not_op (c : ascii) : is_namechar c = true -> negb (is_op c) = true.
Proof. destruct c as [[] [] [] [] [] [] [] []]; vm_compute; congruence. Qed.

Lemma normalize_namechars (s : string) :
  all_chars is_namechar s = true -> all_chars is_namechar (normalize s) = true.
Proof.
  induction s as [|c t IH]; [reflexivity|].
  rewrite normalize_cons. simpl. intros H. apply andb_prop in H as [H1 H2].
  now rewrite namechar_normc, IH.
Qed.

Lemma parse_requirement_split (line0 n v : string) :
  parse_requirement line0 = Some (n, v) ->
  all_chars (fun c => negb (is_op c)) n = true /\
  (v = "" \/ exists c, first_char v = Some c /\ is_op c = true).
Proof.
  unfold parse_requirement.
  set (line := strip (before_hash line0)).
  destruct (String.eqb line ""); [discriminate|].
  destruct (_ || _); [discriminate|].
  destruct (match_name line) as [name|] eqn:Hm; [|discriminate].
  destruct (match_name_shape line name Hm) as (c & t & _ & Hc & ->).
  set (rest := substring _ _ line).
  destruct (search_version_shape rest) as [_ Hv2].
  intros H. injection H as <- <-. split; [|exact Hv2].
  apply (all_chars_impl is_namechar); [apply namechar_not_op|].
  apply normalize_namechars. simpl.
  assert (Hn : is_namechar c = true) by (unfold is_namechar; now rewrite Hc).
  rewrite Hn. simpl.
  apply (prefix_all _ _ (take_while is_namechar t));
    [apply prefix_upto|apply take_while_all].
Qed.

Lemma full_spec_name (line0 n v : string) :
  parse_requirement line0 = Some (n, v) ->
  take_while (fun c => negb (is_op c)) (full_spec_of n v) = n.
Proof.
  intros H. destruct (parse_requirement_split line0 n v H) as [Hn Hv].
  unfold full_spec_of. destruct (String.eqb v "") eqn:Ev; simpl.
  - rewrite <- (str_append_nil_r n) at 1. apply take_while_app_stop; auto.
  - apply take_while_app_stop; [exact Hn|].
    destruct Hv as [->|[c [Hc Hop]]]; [now left|right].
    exists c. split; [exact Hc|now rewrite Hop].
Qed.

Lemma filter_length_mono {A} (p q : A -> bool) (l : list A) :
  (forall x, In x l -> p x = true -> q x = true) ->
  List.length (filter p l) <= List.length (filter q l).
Proof.
  induction l as [|x l IH]; simpl; intros H; [lia|].
  destruct (p x) eqn:Ep.
  - rewrite (H x (or_introl eq_refl) Ep). simpl.
    apply le_n_S, IH. intros y Hy. apply H. now right.
  - destruct (q x); simpl; [apply le_S|]; apply IH; intros y Hy; apply H; now right.
Qed.

Lemma count_keys_in (keyf : string -> string -> string) (files : list manifest) (k : string) :
  In k (dkeys (count_files keyf files)) <->
  exists f, In f files /\ In k (file_keys keyf f).
Proof.
  destruct (count_files_nodup_pos keyf files) as [_ Hpos].
  pose proof (count_files_filter keyf files k) as Hc. split.
  - intros Hk. apply dget_in in Hk as [n Hn].
    rewrite Forall_forall in Hpos. specialize (Hpos _ (dget_some_in _ _ _ Hn)). simpl in Hpos.
    unfold count_of in Hc. rewrite Hn in Hc.
    destruct (filter (fun f => existsb (String.eqb k) (file_keys keyf f)) files)
      as [|f fs] eqn:Hf; [simpl in Hc; lia|].
    assert (Hin : In f (filter (fun f => existsb (String.eqb k) (file_keys keyf f)) files))
      by (rewrite Hf; now left).
    apply filter_In in Hin as [Hin Hex]. apply existsb_eqb_in in Hex. eauto.
  - intros [f [Hf Hk]]. apply dget_in.
    assert (Hin : In f (filter (fun f => existsb (String.eqb k) (file_keys keyf f)) files))
      by (apply filter_In; split; [exact Hf|now apply existsb_eqb_in]).
    unfold count_of in Hc.
    destruct (dget k (count_files keyf files)) as [n|]; [eauto|].
    destruct (filter _ files); [contradiction|discriminate].
Qed.

(** The counts are the number of files that declare each key. *)
Theorem counts_are_file_counts (files : list manifest) (k : string) :
  count_of k (package_counts_of files) =
    List.length (filter (fun f => existsb (String.eqb k) (file_keys name_key f)) files) /\
  count_of k (extract_packages_with_versions files) =
    List.length (filter (fun f => existsb (String.eqb k) (file_keys full_spec_of f)) files) /\
  (In k (dkeys (package_counts_of files)) <->
     exists f, In f files /\ In k (file_keys name_key f)) /\
  (In k (dkeys (extract_packages_with_versions files)) <->
     exists f, In f files /\ In k (file_keys full_spec_of f)).
Proof.
  rewrite package_counts_of_eq, extract_packages_with_versions_eq.
  split; [apply count_files_filter|]. split; [apply count_files_filter|].
  split; apply count_keys_in.
Qed.

Lemma file_keys_full_name (f : manifest) (k : string) :
  In k (file_keys full_spec_of f) ->
  In (take_while (fun c => negb (is_op c)) k) (file_keys name_key f).
Proof.
  unfold file_keys. destruct (snd f) as [lines|]; [|tauto].
  rewrite !line_keys_decls, !in_map_iff. intros [[n v] [E Hd]]. simpl in E.
  exists (n, v). split; [|exact Hd]. subst k. simpl. unfold name_key.
  unfold line_decls in Hd. apply in_flat_map in Hd as [l [_ Hl]].
  destruct (parse_requirement l) as [[n' v']|] eqn:Hp; [|destruct Hl].
  destruct (String.eqb n' ""); [destruct Hl|].
  destruct Hl as [E|[]]. injection E as -> ->. symmetry. eapply full_spec_name; exact Hp.
Qed.

(** A full-spec key is counted in no more files than its package name. *)
Theorem full_spec_count_le_name_count (files : list manifest) (k : string) :
  count_of k (extract_packages_with_versions files) <=
  count_of (take_while (fun c => negb (is_op c)) k) (package_counts_of files).
Proof.
  rewrite package_counts_of_eq, extract_packages_with_versions_eq, !count_files_filter.
  apply filter_length_mono. intros f _ H.
  apply existsb_eqb_in. apply file_keys_full_name. now apply existsb_eqb_in.
Qed.

Lemma written_report (p h1 h2 : string) (rows : list string) (msg : string) (m : M unit) :
  m [] = (Ok tt, EOpenW p :: app (map (EWrite p) (h1 :: h2 :: rows)) [EClose p; EPrint msg]) ->
  written m p = Some (h1 ++ h2 ++ String.concat "" rows).
Proof.
  intros H. unfold written. rewrite H. cbn [snd]. cbn [fs_apply].
  rewrite fs_apply_app. cbn [fs_apply app].
  rewrite (fs_apply_writes _ p ""); [|apply dget_dset_eq].
  rewrite !concat_cons. reflexivity.
Qed.

Lemma sorted_strings_strict (l : list string) :
  NoDup l -> StronglySorted (fun a b => String.ltb a b = true) (sorted_strings l) /\
             Permutation (sorted_strings l) l.
Proof.
  intros Hn. assert (P : Permutation (sorted_strings l) l) by apply sort_by_perm.
  split; [|exact P].
  assert (Hs : StronglySorted (fun a b => String.leb a b = true) (sorted_strings l))
    by (apply sort_by_strongly_sorted; [apply str_leb_total'|apply str_leb_trans]).
  assert (Hn' : NoDup (sorted_strings l)) by (eapply Permutation_NoDup; [symmetry|]; eauto).
  clear P Hn. induction (sorted_strings l) as [|a t IH]; [constructor|].
  apply StronglySorted_inv in Hs as [Hs F]. apply NoDup_cons_iff in Hn' as [Ha Hn'].
  constructor; [now apply IH|]. rewrite Forall_forall in F |- *. intros b Hb.
  apply str_leb_ltb; [now apply F|]. intros ->. contradiction.
Qed.

Lemma unique_report_written (packages : list (string * list string)) (p : string) :
  written (generate_unique_packages_report packages p) p =
  Some (("# Unique Packages (Alphabetically Sorted)" ++ nl) ++
        ("# Total unique packages: " ++ str_of_nat (List.length (sorted_strings (dkeys packages)))
         ++ nl ++ nl) ++
        String.concat "" (map (fun k => k ++ nl) (sorted_strings (dkeys packages)))).
Proof.
  eapply written_report.
  unfold generate_unique_packages_report.
  erewrite bind_ok; [|apply with_open_ok; intros t; rewrite !bind_emit;
                      rewrite (mapM_emit _ (fun k => EWrite p (k ++ nl))) by reflexivity;
                      rewrite <- !app_assoc; reflexivity].
  unfold emit. cbn [app map]. rewrite ?map_map, <- app_assoc. reflexivity.
Qed.

Lemma unique_versions_report_written (package_versions : list (string * nat)) (p : string) :
  written (generate_unique_packages_with_versions_report package_versions p) p =
  Some (("# Unique Packages with Versions (Alphabetically Sorted)" ++ nl) ++
        ("# Total unique package+version combinations: "
         ++ str_of_nat (List.length (sorted_strings (dkeys package_versions))) ++ nl ++ nl) ++
        String.concat "" (map (fun k => k ++ nl) (sorted_strings (dkeys package_versions)))).
Proof.
  eapply written_report.
  unfold generate_unique_packages_with_versions_report.
  erewrite bind_ok; [|apply with_open_ok; intros t; rewrite !bind_emit;
                      rewrite (mapM_emit _ (fun k => EWrite p (k ++ nl))) by reflexivity;
                      rewrite <- !app_assoc; reflexivity].
  unfold emit. cbn [app map]. rewrite ?map_map, <- app_assoc. reflexivity.
Qed.

(** The unique-names report of a scan lists every declared name once, in
    strictly ascending order, one per line after a two-line header whose
    total is the number of lines listed. *)
Theorem unique_packages_report_contents (files : list manifest) (p : string) :
  exists ks,
    written (generate_unique_packages_report (extract_packages files) p) p =
      Some ("# Unique Packages (Alphabetically Sorted)" ++ nl ++
            "# Total unique packages: " ++ str_of_nat (List.length ks) ++ nl ++ nl ++
            String.concat "" (map (fun k => k ++ nl) ks)) /\
    StronglySorted (fun a b => String.ltb a b = true) ks /\
    (forall k, In k ks <-> exists v, In (k, v) (flat_map file_decls files)).
Proof.
  destruct (extract_packages_inv files) as [Hn [Hk _]].
  destruct (sorted_strings_strict _ Hn) as [Hs P].
  exists (sorted_strings (dkeys (extract_packages files))). split.
  - rewrite unique_report_written. rewrite !str_append_assoc. reflexivity.
  - split; [exact Hs|]. intros k. rewrite <- Hk. split; apply Permutation_in; auto.
    now symmetry.
Qed.

(** The unique-full-specs report of a scan lists every full-spec key that
    some file declares once, in strictly ascending order, one per line
    after a two-line header whose total is the number of lines listed. *)
Theorem unique_versions_report_contents (files : list manifest) (p : string) :
  exists ks,
    written (generate_unique_packages_with_versions_report
               (extract_packages_with_versions files) p) p =
      Some ("# Unique Packages with Versions (Alphabetically Sorted)" ++ nl ++
            "# Total unique package+version combinations: " ++ str_of_nat (List.length ks)
            ++ nl ++ nl ++ String.concat "" (map (fun k => k ++ nl) ks)) /\
    StronglySorted (fun a b => String.ltb a b = true) ks /\
    (forall k, In k ks <-> exists f, In f files /\ In k (file_keys full_spec_of f)).
Proof.
  rewrite extract_packages_with_versions_eq.
  destruct (count_files_nodup_pos full_spec_of files) as [Hn _].
  destruct (sorted_strings_strict _ Hn) as [Hs P].
  exists (sorted_strings (dkeys (count_files full_spec_of files))). split.
  - rewrite unique_versions_report_written. rewrite !str_append_assoc. reflexivity.
  - split; [exact Hs|]. intros k. rewrite <- count_keys_in.
    split; apply Permutation_in; auto. now symmetry.
Qed.

(** Everything from the first [#] on is a comment: a line with a comment
    parses as the line without it. *)
Theorem parse_requirement_comment_suffix (l c : string) :
  parse_requirement (l ++ String "#" c) = parse_requirement l.
Proof. apply parse_requirement_text. now rewrite before_hash_comment. Qed.

(** Whitespace around a line, the line break included, changes nothing. *)
Theorem parse_requirement_padding (w1 l w2 : string) :
  all_chars is_space w1 = true -> all_chars is_space w2 = true ->
  parse_requirement (w1 ++ l ++ w2) = parse_requirement l.
Proof.
  intros H1 H2. apply parse_requirement_text.
  rewrite before_hash_app by exact (all_chars_impl _ _ w1 space_not_hash H1).
  destruct (before_hash_app_spaces l w2 H2) as [w' [Hw' ->]].
  unfold strip at 1. rewrite lstrip_spaces_app by exact H1. fold (strip (before_hash l ++ w')).
  now apply strip_app_spaces.
Qed.

(** URL and VCS lines ([http://], [https://], [git+]) and option lines
    starting with [-] ([-e], [-r], [--index-url], ...) declare nothing. *)
Theorem parse_requirement_non_package_lines (x : string) :
  parse_requirement ("http://" ++ x) = None /\
  parse_requirement ("https://" ++ x) = None /\
  parse_requirement ("git+" ++ x) = None /\
  parse_requirement (String "-" x) = None.
Proof.
  split; [apply parse_requirement_prefixed; [reflexivity|discriminate|now left]|].
  split; [apply parse_requirement_prefixed; [reflexivity|discriminate|now left]|].
  split; [apply parse_requirement_prefixed; [reflexivity|discriminate|now left]|].
  apply (parse_requirement_prefixed "-" x); [reflexivity|discriminate|right; eauto].
Qed.


Lemma main_eof_at_prompt_witness :
  let e := mk_env (Some "repo")
             (BDir [EFile "requirements.txt" (Some ["requests>=2.28" ++ nl])]) "out"
             "unique_packages.txt" "packages_by_frequency.txt" false false "anthropic"
             true None true true None [] in
  fst (run_main e) = 1 /\
  last (snd (run_main e)) (EPrint "") = EInput (nl ++ "Run AI analysis? [Y/n]: ").
Proof.
  intros e.
  destruct (main_eof_at_prompt e "repo"
              [EFile "requirements.txt" (Some ["requests>=2.28" ++ nl])]) as [H1 [H2 _]];
    [reflexivity|discriminate|reflexivity|vm_compute; discriminate
    |reflexivity|reflexivity|reflexivity|reflexivity|].
  split; [exact H1|exact H2].
Defined.





Lemma parse_requirement_padding_witness :
  all_chars is_space "  " = true /\ all_chars is_space nl = true /\
  parse_requirement ("  " ++ "requests>=2.0" ++ nl) = parse_requirement "requests>=2.0".
Proof.
  split; [reflexivity|]. split; [reflexivity|].
  apply parse_requirement_padding; reflexivity.
Defined.
